(** * The [unless] logical operator of the coordinator

    A shallow embedding of [src/coordinator/functions/logical/unless.go]
    and the properties of its exclusion selector and block processor.

    The file imports three packages that are not part of the verified
    unit ([block], [transform], [parser]) and one helper of its own
    package ([hashFunc]).  They are interfaces in the Go code and stay
    interfaces here: two type classes collect what the operator reads
    from them, and every definition and theorem below is stated for an
    arbitrary implementation.

    Go's [int] is kept as [Z] and [uint64] as [N].  The [int]s of this
    file are positions in slices and row counters, which stay far below
    [2^63]; the [uint64]s are map keys, never computed with.  No
    wrap-around is written out. *)

From stdpp Require Import base option list gmap strings sorting.

Local Open Scope Z_scope.

(** ** Errors and results *)

(** The three package-level error values, and the errors that the
    collaborators (iterators, controller, builder) hand back. *)
Inductive error : Type :=
  | errMismatchedBounds
  | errMismatchedStepCounts
  | errConflictingTags
  | errExternal (msg : string).

(** What a call of [Process] does: it returns the Go pair
    [(block.Block, error)], a [nil] component being [None], or it panics
    on an index out of range. *)
Inductive result (B : Type) : Type :=
  | Return (blk : option B) (err : option error)
  | Panic.
Arguments Return {B} blk err.
Arguments Panic {B}.

(** Go slice indexing [s[i]] with an [int] index: defined inside
    [0 <= i < len(s)], a run-time panic ([None]) outside. *)
Definition sliceAt {A : Type} (s : list A) (i : Z) : option A :=
  if decide (0 ≤ i) then s !! Z.to_nat i else None.

(** ** Imported data *)

(** [models.Tags], [block.SeriesMeta] with its field [Tags],
    [block.Metadata], [parser.NodeID], the [float64] sample values (only
    ever copied, so their type is left open) and the signature function
    [hashFunc on names...], which yields a [uint64]. *)
Class Data : Type := {
  TagSet : Type;
  SeriesMeta : Type;
  Tags : SeriesMeta → TagSet;
  Metadata : Type;
  NodeID : Type;
  Value : Type;
  hashFunc : bool → list string → TagSet → N;
}.

(** [VectorMatching]: the fields [exclusion] reads. *)
Record VectorMatching : Type := {
  On : bool;
  MatchingLabels : list string;
}.

Definition UnlessType : string := "unless".
Definition initIndexSliceLength : Z := 10.

Section operator.
Context `{Data}.

(** [BaseOp].  [ProcessorFn] holds the constructor [NewUnlessNode]
    itself and is never read by the processor; it is left out.
    [Matching] is a pointer in Go; the model covers operators built with
    a matching configuration (a [nil] one makes [exclusion] panic on its
    first line). *)
Record BaseOp : Type := {
  OperatorType : string;
  LNode : NodeID;
  RNode : NodeID;
  Matching : VectorMatching;
}.

Definition NewUnlessOp (lNode rNode : NodeID) (matching : VectorMatching)
    : BaseOp :=
  {| OperatorType := UnlessType; LNode := lNode; RNode := rNode;
     Matching := matching |}.

(** [UnlessNode]: the controller is a pointer to a stateful object; its
    state is threaded through [Process] explicitly, so the node keeps
    the operator only. *)
Record UnlessNode : Type := {
  op : BaseOp;
}.

Definition NewUnlessNode (o : BaseOp) : UnlessNode := {| op := o |}.
End operator.

Section iterators.
Context `{Data}.

(** [block.StepIter], as the data it yields: [StepCount()],
    [SeriesMeta()], [Meta()], and the successive results of
    [Current()] for as long as [Next()] answers [true].  Each result
    is an error or the [Values()] of the step.  Nothing ties
    [StepCount] to the number of steps: the code never compares
    them. *)
Record StepIter : Type := {
  StepCount : Z;
  iterSeriesMeta : list SeriesMeta;
  Meta : Metadata;
  steps : list (error + list Value);
}.
End iterators.

(** ** The collaborators *)

(** [block.Block] ([StepIter()]), [block.Builder] ([AddCols],
    [AppendValue], [Build]) and [transform.Controller] ([BlockBuilder]).
    A builder is mutated in place by the Go code; here each call returns
    the builder after the call.  [AddCols] answers with its error or the
    grown builder; [BlockBuilder] answers and leaves the controller in a
    new state. *)
Class Collaborators `{Data} : Type := {
  Block : Type;
  blockStepIter : Block → error + StepIter;
  Builder : Type;
  AddCols : Builder → Z → error + Builder;
  AppendValue : Builder → Z → Value → Builder;
  Build : Builder → Block;
  Controller : Type;
  BlockBuilder :
    Controller → Metadata → list SeriesMeta → (error + Builder) * Controller;
}.

(** ** The exclusion selector *)

Section exclusion.
Context `{Data}.

(** [idFunction := hashFunc(c.op.Matching.On, c.op.Matching.MatchingLabels...)] *)
Definition idFunction (c : UnlessNode) : TagSet → N :=
  hashFunc (On (Matching (op c))) (MatchingLabels (Matching (op c))).

(** [for idx, meta := range lhs { leftSigs[idFunction(meta.Tags)] = idx }],
    from position [idx] on. *)
Fixpoint recordLeft (idf : TagSet → N) (idx : Z) (lhs : list SeriesMeta)
    (leftSigs : gmap N Z) : gmap N Z :=
  match lhs with
  | [] => leftSigs
  | meta :: lhs' =>
      recordLeft idf (idx + 1) lhs' (<[idf (Tags meta) := idx]> leftSigs)
  end.

(** [for _, rs := range rhs { id := idFunction(rs.Tags);
     if _, ok := leftSigs[id]; ok { leftSigs[id] = -1 } }] *)
Fixpoint excludeRight (idf : TagSet → N) (rhs : list SeriesMeta)
    (leftSigs : gmap N Z) : gmap N Z :=
  match rhs with
  | [] => leftSigs
  | rs :: rhs' =>
      let id := idf (Tags rs) in
      match leftSigs !! id with
      | Some _ => excludeRight idf rhs' (<[id := -1]> leftSigs)
      | None => excludeRight idf rhs' leftSigs
      end
  end.

(** [for _, v := range leftSigs { if v > -1 { uniqueLeft = append(uniqueLeft, v) } }],
    over the entries in the order the map iteration happens to visit
    them. *)
Fixpoint collectLeft (visited : list (N * Z)) (uniqueLeft : list Z) : list Z :=
  match visited with
  | [] => uniqueLeft
  | (_, v) :: visited' =>
      if decide (v > -1) then collectLeft visited' (uniqueLeft ++ [v])
      else collectLeft visited' uniqueLeft
  end.

(** [sort.Ints] *)
Definition sortInts (a : list Z) : list Z := merge_sort Z.le a.

(** The signature map after the first two loops of [exclusion]. *)
Definition leftSigsOf (c : UnlessNode) (lhs rhs : list SeriesMeta) : gmap N Z :=
  excludeRight (idFunction c) rhs (recordLeft (idFunction c) 0 lhs ∅).

(** The last loop and the sort, for one iteration order of the map. *)
Definition exclusionVisiting (visited : list (N * Z)) : list Z :=
  sortInts (collectLeft visited []).

(** [exclusion].  Go leaves the iteration order of a map open; the
    model visits the entries in the order of [map_to_list], and
    [exclusionVisiting] is there to state that the order is
    immaterial. *)
Definition exclusion (c : UnlessNode) (lhs rhs : list SeriesMeta) : list Z :=
  exclusionVisiting (map_to_list (leftSigsOf c lhs rhs)).
End exclusion.

(** ** The block processor *)

Section process.
Context `{Collaborators}.

(** [for _, idx := range idxArray { builder.AppendValue(index, values[idx]) }];
    [None] is the panic of [values[idx]]. *)
Fixpoint appendRow (idxArray : list Z) (index : Z) (values : list Value)
    (builder : Builder) : option Builder :=
  match idxArray with
  | [] => Some builder
  | idx :: idxArray' =>
      match sliceAt values idx with
      | Some v => appendRow idxArray' index values (AppendValue builder index v)
      | None => None
      end
  end.

(** The loop of [addValuesAtIndeces] from row [index] on, over the
    steps the iterator still has.  [None] is a panic; otherwise the
    result is the returned [error] ([None] for [nil]) with the builder
    as the loop left it, partly filled when an error cut it short. *)
Fixpoint addValuesFrom (idxArray : list Z) (index : Z)
    (remaining : list (error + list Value)) (builder : Builder)
    : option (option error * Builder) :=
  match remaining with
  | [] => Some (None, builder)
  | inl err :: _ => Some (Some err, builder)
  | inr values :: remaining' =>
      match appendRow idxArray index values builder with
      | Some builder' => addValuesFrom idxArray (index + 1) remaining' builder'
      | None => None
      end
  end.

Definition addValuesAtIndeces (idxArray : list Z) (iter : StepIter)
    (builder : Builder) : option (option error * Builder) :=
  addValuesFrom idxArray 0 (steps iter) builder.

(** [for _, idx := range lIds { takenMeta = append(takenMeta, lSeriesMeta[idx]) }] *)
Fixpoint takeMeta (lSeriesMeta : list SeriesMeta) (lIds : list Z)
    (takenMeta : list SeriesMeta) : option (list SeriesMeta) :=
  match lIds with
  | [] => Some takenMeta
  | idx :: lIds' =>
      match sliceAt lSeriesMeta idx with
      | Some meta => takeMeta lSeriesMeta lIds' (takenMeta ++ [meta])
      | None => None
      end
  end.

(** [Process], with the controller's state before the call as an
    argument and its state after the call in the result. *)
Definition Process (c : UnlessNode) (lhs rhs : Block) (ctl : Controller)
    : result Block * Controller :=
  match blockStepIter lhs with
  | inl err => (Return None (Some err), ctl)
  | inr lIter =>
  match blockStepIter rhs with
  | inl err => (Return None (Some err), ctl)
  | inr rIter =>
  if decide (StepCount lIter ≠ StepCount rIter)
  then (Return None (Some errMismatchedStepCounts), ctl)
  else
    let lSeriesMeta := iterSeriesMeta lIter in
    let rSeriesMeta := iterSeriesMeta rIter in
    let lIds := exclusion c lSeriesMeta rSeriesMeta in
    match takeMeta lSeriesMeta lIds [] with
    | None => (Panic, ctl)
    | Some takenMeta =>
    match BlockBuilder ctl (Meta lIter) takenMeta with
    | (inl err, ctl') => (Return None (Some err), ctl')
    | (inr builder, ctl') =>
    match AddCols builder (StepCount lIter) with
    | inl err => (Return None (Some err), ctl')
    | inr builder1 =>
    match addValuesAtIndeces lIds lIter builder1 with
    | None => (Panic, ctl')
    | Some (Some err, _) => (Return None (Some err), ctl')
    | Some (None, builder2) => (Return (Some (Build builder2)) None, ctl')
    end end end end
  end end.
End process.

(** ** Vocabulary of the statements *)

Section vocabulary.
Context `{Collaborators}.

(** [i] is the last position of [lhs] whose series has signature [s]. *)
Definition lastWith (idf : TagSet → N) (lhs : list SeriesMeta) (s : N)
    (i : nat) : Prop :=
  (∃ meta, lhs !! i = Some meta ∧ idf (Tags meta) = s) ∧
  ∀ j meta', lhs !! j = Some meta' → idf (Tags meta') = s → (j ≤ i)%nat.

(** Some series of [metas] has signature [s]. *)
Definition hasSig (idf : TagSet → N) (metas : list SeriesMeta) (s : N) : Prop :=
  ∃ meta, meta ∈ metas ∧ idf (Tags meta) = s.

(** [taken] lists the elements of [s] at the positions [ids], in the
    order of [ids]. *)
Definition projection {A : Type} (s : list A) (ids : list Z)
    (taken : list A) : Prop :=
  Forall2 (λ idx x, sliceAt s idx = Some x) ids taken.

(** The builder after the calls [AppendValue(row, v)] for the pairs of
    [calls], in order. *)
Definition replay (builder : Builder) (calls : list (Z * Value)) : Builder :=
  foldl (λ b call, AppendValue b call.1 call.2) builder calls.

(** The calls that append the rows [rows], one after the other, as
    rows [k], [k+1], ... *)
Fixpoint callsOf (k : Z) (rows : list (list Value)) : list (Z * Value) :=
  match rows with
  | [] => []
  | row :: rows' => ((λ v, (k, v)) <$> row) ++ callsOf (k + 1) rows'
  end.

(** [out] is the block built by the builder that the controller in
    state [ctl] hands out for [meta] and the series [series], after
    [AddCols(cols)] and the calls [calls]; the controller is left in
    state [ctl']. *)
Definition builtFrom (ctl : Controller) (meta : Metadata)
    (series : list SeriesMeta) (cols : Z) (calls : list (Z * Value))
    (out : Block) (ctl' : Controller) : Prop :=
  ∃ builder builder1,
    BlockBuilder ctl meta series = (inr builder, ctl') ∧
    AddCols builder cols = inr builder1 ∧
    out = Build (replay builder1 calls).

(** A collaborator of [Process c lhs rhs], called with the controller
    in state [ctl], answers with the error [err], every call before it
    having succeeded; [ctl'] is the state of the controller by then.
    The five cases are the five calls that can fail: opening the left
    iterator, opening the right one, requesting the builder,
    allocating the columns, retrieving a step.  A step is retrieved
    only if the steps before it had a value at every survivor index:
    the loop panics otherwise. *)
Inductive failsWith (c : UnlessNode) (lhs rhs : Block) (ctl : Controller)
    : error → Controller → Prop :=
  | fails_left err :
      blockStepIter lhs = inl err →
      failsWith c lhs rhs ctl err ctl
  | fails_right lIter err :
      blockStepIter lhs = inr lIter →
      blockStepIter rhs = inl err →
      failsWith c lhs rhs ctl err ctl
  | fails_builder lIter rIter takenMeta err ctl' :
      blockStepIter lhs = inr lIter →
      blockStepIter rhs = inr rIter →
      StepCount lIter = StepCount rIter →
      projection (iterSeriesMeta lIter)
        (exclusion c (iterSeriesMeta lIter) (iterSeriesMeta rIter)) takenMeta →
      BlockBuilder ctl (Meta lIter) takenMeta = (inl err, ctl') →
      failsWith c lhs rhs ctl err ctl'
  | fails_columns lIter rIter takenMeta builder err ctl' :
      blockStepIter lhs = inr lIter →
      blockStepIter rhs = inr rIter →
      StepCount lIter = StepCount rIter →
      projection (iterSeriesMeta lIter)
        (exclusion c (iterSeriesMeta lIter) (iterSeriesMeta rIter)) takenMeta →
      BlockBuilder ctl (Meta lIter) takenMeta = (inr builder, ctl') →
      AddCols builder (StepCount lIter) = inl err →
      failsWith c lhs rhs ctl err ctl'
  | fails_step lIter rIter takenMeta builder builder1 vss post err ctl' :
      blockStepIter lhs = inr lIter →
      blockStepIter rhs = inr rIter →
      StepCount lIter = StepCount rIter →
      projection (iterSeriesMeta lIter)
        (exclusion c (iterSeriesMeta lIter) (iterSeriesMeta rIter)) takenMeta →
      BlockBuilder ctl (Meta lIter) takenMeta = (inr builder, ctl') →
      AddCols builder (StepCount lIter) = inr builder1 →
      steps lIter = (inr <$> vss) ++ inl err :: post →
      Forall (λ values, ∃ row,
                projection values
                  (exclusion c (iterSeriesMeta lIter) (iterSeriesMeta rIter)) row)
        vss →
      failsWith c lhs rhs ctl err ctl'.

(** Every step that [iter] yields has one value per series. *)
Definition aligned (iter : StepIter) : Prop :=
  Forall (λ step, match step with
                  | inl _ => True
                  | inr values => length values = length (iterSeriesMeta iter)
                  end) (steps iter).

(** The signatures of the series of [metas], as a set. *)
Definition signatures (idf : TagSet → N) (metas : list SeriesMeta) : gset N :=
  list_to_set ((λ meta, idf (Tags meta)) <$> metas).
End vocabulary.

(** ** A column-block implementation of the collaborators

    Used to run the operator on concrete blocks. *)

Module Sample.

(** Modelled from the spec: [block.SeriesMeta] is declared in the
    [block] package; it is the tag set identifying one series, a set
    of tag key/value pairs, kept here as a list of pairs. *)
Record seriesMeta : Type := {
  smName : string;
  smTags : list (string * string);
}.

Definition keepTag (on : bool) (names : list string) (kv : string * string) : bool :=
  if on then bool_decide (kv.1 ∈ names) else bool_decide (kv.1 ∉ names).

(** Modelled from the spec: [hashFunc] is defined in another file of
    the package; it maps a tag set to a deterministic numeric identity
    under the inclusion flag and the label names.  Here the identity
    is an injective code of the pairs that the matching keeps. *)
Definition sampleHash (on : bool) (names : list string)
    (tags : list (string * string)) : N :=
  Npos (encode (filter (λ kv, keepTag on names kv = true) tags)).

#[export] Instance sampleData : Data := {|
  TagSet := list (string * string);
  SeriesMeta := seriesMeta;
  Tags := smTags;
  Metadata := Z * Z;
  NodeID := string;
  Value := Z;
  hashFunc := sampleHash;
|}.

(** A block is what its step iterator yields, or the error of opening
    it. *)
Record block : Type := { opened : error + StepIter }.

(** Modelled from the spec: the builder is declared in the [block]
    package; it holds the series metadata declared up front and the
    time columns allocated so far, appends a value to the column of
    its row, and is finalized into a block. *)
Record columnBuilder : Type := {
  cbMeta : Z * Z;
  cbSeries : list seriesMeta;
  cbColumns : list (list Z);
}.

Definition addCols (b : columnBuilder) (n : Z) : error + columnBuilder :=
  if decide (n < 0) then inl (errExternal "negative column count")
  else inr {| cbMeta := cbMeta b; cbSeries := cbSeries b;
              cbColumns := cbColumns b ++ replicate (Z.to_nat n) [] |}.

Definition appendValue (b : columnBuilder) (row : Z) (v : Z) : columnBuilder :=
  {| cbMeta := cbMeta b; cbSeries := cbSeries b;
     cbColumns := alter (λ col, col ++ [v]) (Z.to_nat row) (cbColumns b) |}.

Definition build (b : columnBuilder) : block :=
  {| opened := inr {| StepCount := Z.of_nat (length (cbColumns b));
                      iterSeriesMeta := cbSeries b;
                      Meta := cbMeta b;
                      steps := inr <$> cbColumns b |} |}.

(** The controller hands out builders while it has some left, and
    counts the requests it got. *)
Record controller : Type := {
  requests : nat;
  available : nat;
}.

Definition blockBuilder (ctl : controller) (meta : Z * Z)
    (series : list seriesMeta) : (error + columnBuilder) * controller :=
  match available ctl with
  | O => (inl (errExternal "no builder available"),
          {| requests := S (requests ctl); available := O |})
  | S k => (inr {| cbMeta := meta; cbSeries := series; cbColumns := [] |},
            {| requests := S (requests ctl); available := k |})
  end.

#[export] Instance sampleCollaborators : Collaborators := {|
  Block := block;
  blockStepIter := opened;
  Builder := columnBuilder;
  AddCols := addCols;
  AppendValue := appendValue;
  Build := build;
  Controller := controller;
  BlockBuilder := blockBuilder;
|}.

Definition onTag : UnlessNode :=
  NewUnlessNode
    (NewUnlessOp "left" "right" {| On := true; MatchingLabels := ["tag"] |}).

Definition series (name value : string) : seriesMeta :=
  {| smName := name; smTags := [("tag", value); ("host", name)] |}.

Definition A : seriesMeta := series "A" "x".
Definition B : seriesMeta := series "B" "y".
Definition C : seriesMeta := series "C" "x".

Definition iterOf (n : Z) (metas : list seriesMeta)
    (rows : list (error + list Z)) : StepIter :=
  {| StepCount := n; iterSeriesMeta := metas; Meta := (0, 60); steps := rows |}.

Definition blockOf (iter : StepIter) : block := {| opened := inr iter |}.

Definition unopened (msg : string) : block := {| opened := inl (errExternal msg) |}.

Definition fresh : controller := {| requests := 0; available := 1 |}.
Definition spent : controller := {| requests := 1; available := 0 |}.
Definition exhausted : controller := {| requests := 0; available := 0 |}.
Definition refused : controller := {| requests := 1; available := 0 |}.

Definition itABC : StepIter := iterOf 2 [A; B; C] [inr [1; 2; 3]; inr [4; 5; 6]].
Definition itAB : StepIter := iterOf 2 [A; B] [inr [1; 2]; inr [4; 5]].
Definition itAC : StepIter := iterOf 2 [A; C] [inr [1; 3]; inr [4; 6]].
Definition itNone : StepIter := iterOf 2 [] [inr []; inr []].
Definition itX : StepIter := iterOf 2 [series "R" "x"] [inr [7]; inr [8]].
Definition itX' : StepIter :=
  iterOf 2 [series "R" "x"] [inr [70]; inl errConflictingTags].
Definition itFive : StepIter := iterOf 5 [A; B; C] [].
Definition itSix : StepIter := iterOf 6 [] [].
Definition itNegative : StepIter := iterOf (-1) [A; B; C] [].
Definition itNegative' : StepIter := iterOf (-1) [] [].
Definition itBroken : StepIter :=
  iterOf 2 [A; B; C] [inr [1; 2; 3]; inl (errExternal "step lost"); inr [7; 8; 9]].

Definition outB : block := blockOf (iterOf 2 [B] [inr [2]; inr [5]]).
Definition outBC : block := blockOf (iterOf 2 [B; C] [inr [2; 3]; inr [5; 6]]).
Definition outAB : block := blockOf itAB.

Definition emptyBuilder : columnBuilder :=
  {| cbMeta := (0, 60); cbSeries := []; cbColumns := [] |}.
Definition twoColumns : columnBuilder :=
  {| cbMeta := (0, 60); cbSeries := []; cbColumns := [[]; []] |}.
Definition builderABC : columnBuilder :=
  {| cbMeta := (0, 60); cbSeries := [A; B; C]; cbColumns := [] |}.
Definition builderABC2 : columnBuilder :=
  {| cbMeta := (0, 60); cbSeries := [A; B; C]; cbColumns := [[]; []] |}.

Definition itBroken' : StepIter :=
  iterOf 2 [A; B; C] [inr [1; 2; 3]; inl (errExternal "step lost")].
Definition itABC' : StepIter :=
  iterOf 2 [A; B; C] [inr [100; 2; 3]; inr [400; 5; 6; 7]].
Definition builderBC : columnBuilder :=
  {| cbMeta := (0, 60); cbSeries := [B; C]; cbColumns := [] |}.
Definition builderBC2 : columnBuilder :=
  {| cbMeta := (0, 60); cbSeries := [B; C]; cbColumns := [[]; []] |}.
Definition builderBCrow : columnBuilder :=
  {| cbMeta := (0, 60); cbSeries := [B; C]; cbColumns := [[2; 3]; []] |}.
End Sample.


(** ** Properties of the exclusion selector *)

Section exclusion_facts.
Context `{Collaborators}.
Implicit Types (idf : TagSet → N) (lhs rhs : list SeriesMeta)
  (leftSigs : gmap N Z) (s : N) (v idx : Z).

Lemma hasSig_nil idf s : ¬ hasSig idf [] s.
Proof. intros (meta & Hin & _). by apply not_elem_of_nil in Hin. Qed.

Lemma hasSig_cons idf meta metas s :
  hasSig idf (meta :: metas) s ↔ idf (Tags meta) = s ∨ hasSig idf metas s.
Proof.
  unfold hasSig. split.
  - intros (m & Hin & Hs). apply elem_of_cons in Hin as [->|Hin]; eauto.
  - intros [Hs|(m & Hin & Hs)].
    + exists meta. split; [apply elem_of_cons; by left|done].
    + exists m. split; [apply elem_of_cons; by right|done].
Qed.

#[local] Instance hasSig_dec idf metas s : Decision (hasSig idf metas s).
Proof.
  induction metas as [|meta metas IH].
  - right. apply hasSig_nil.
  - destruct (decide (idf (Tags meta) = s)) as [Hs|Hs].
    + left. apply hasSig_cons. by left.
    + destruct IH as [IH|IH].
      * left. apply hasSig_cons. by right.
      * right. rewrite hasSig_cons. tauto.
Defined.

(** The first loop: every key holds the last position of its
    signature, offset by the starting index; keys of no series keep
    what the map held. *)
Lemma recordLeft_lookup idf lhs : ∀ k leftSigs s v,
  recordLeft idf k lhs leftSigs !! s = Some v ↔
    (∃ i, lastWith idf lhs s i ∧ v = k + Z.of_nat i) ∨
    (¬ hasSig idf lhs s ∧ leftSigs !! s = Some v).
Proof.
  induction lhs as [|meta lhs IH]; intros k leftSigs s v; simpl.
  - split.
    + intros Hl. right. split; [apply hasSig_nil|done].
    + intros [(i & [(m & Hm & _) _] & _)|[_ Hl]]; [|done].
      by rewrite lookup_nil in Hm.
  - rewrite IH. split.
    + intros [(i & [(m & Hm & Hs) Hlast] & ->)|[Hno Hl]].
      * left. exists (S i). split; [|lia]. split; [by exists m|].
        intros [|j] m' Hj Hs'; [lia|]. apply le_n_S. by eapply Hlast.
      * destruct (decide (idf (Tags meta) = s)) as [Hs|Hs].
        -- subst s. rewrite lookup_insert_eq in Hl. injection Hl as <-.
           left. exists 0%nat. split; [|lia]. split; [by exists meta|].
           intros [|j] m' Hj Hs'; [lia|]. exfalso. apply Hno.
           exists m'. split; [|done]. simpl in Hj. by eapply list_elem_of_lookup_2.
        -- rewrite lookup_insert_ne in Hl by done. right. split; [|done].
           rewrite hasSig_cons. tauto.
    + intros [(i & [(m & Hm & Hs) Hlast] & ->)|[Hno Hl]].
      * destruct i as [|i].
        -- right. simpl in Hm. injection Hm as ->. split.
           ++ intros (m' & Hin & Hs').
              apply list_elem_of_lookup_1 in Hin as [j Hj].
              specialize (Hlast (S j) m' Hj Hs'). lia.
           ++ rewrite Hs, lookup_insert_eq. f_equal. lia.
        -- left. exists i. split; [|lia]. split; [by exists m|].
           intros j m' Hj Hs'. specialize (Hlast (S j) m' Hj Hs'). lia.
      * right. rewrite hasSig_cons in Hno. split; [tauto|].
        rewrite lookup_insert_ne by tauto. done.
Qed.

(** The second loop: the keys present keep their value unless a
    right-hand series has the signature, which sets them to [-1]; no
    key is added. *)
Lemma excludeRight_lookup idf rhs : ∀ leftSigs s,
  excludeRight idf rhs leftSigs !! s =
    match leftSigs !! s with
    | Some v => if decide (hasSig idf rhs s) then Some (-1) else Some v
    | None => None
    end.
Proof.
  induction rhs as [|rs rhs IH]; intros leftSigs s; simpl.
  - by destruct (leftSigs !! s).
  - destruct (leftSigs !! idf (Tags rs)) as [w|] eqn:Hid; rewrite IH.
    + destruct (decide (idf (Tags rs) = s)) as [Hs|Hs].
      * subst s. rewrite lookup_insert_eq, Hid.
        rewrite (decide_True (P := hasSig idf (rs :: rhs) _)).
        2:{ apply hasSig_cons. by left. }
        by case_decide.
      * rewrite lookup_insert_ne by done.
        destruct (leftSigs !! s); [|done].
        destruct (decide (hasSig idf rhs s)) as [Hr|Hr].
        -- rewrite decide_True; [done|]. apply hasSig_cons. by right.
        -- rewrite decide_False; [done|]. rewrite hasSig_cons. tauto.
    + destruct (leftSigs !! s) as [w|] eqn:Hl; [|done].
      assert (idf (Tags rs) ≠ s) by congruence.
      destruct (decide (hasSig idf rhs s)) as [Hr|Hr].
      * rewrite decide_True; [done|]. apply hasSig_cons. by right.
      * rewrite decide_False; [done|]. rewrite hasSig_cons. tauto.
Qed.

(** Both loops together. *)
Lemma leftSigsOf_lookup c lhs rhs s v :
  leftSigsOf c lhs rhs !! s = Some v ↔
    ∃ i, lastWith (idFunction c) lhs s i ∧
         v = if decide (hasSig (idFunction c) rhs s) then -1 else Z.of_nat i.
Proof.
  unfold leftSigsOf. rewrite excludeRight_lookup.
  destruct (recordLeft _ 0 lhs ∅ !! s) as [w|] eqn:Hw.
  - apply recordLeft_lookup in Hw as [(i & Hi & ->)|[_ Hw]].
    2:{ by rewrite lookup_empty in Hw. }
    split.
    + intros Hv. exists i. split; [done|]. case_decide; naive_solver.
    + intros (i' & Hi' & ->).
      assert (i' = i) as ->.
      { destruct Hi as [(m & Hm & Hs) Hl], Hi' as [(m' & Hm' & Hs') Hl'].
        apply Nat.le_antisymm; eauto. }
      case_decide; f_equal; lia.
  - split; [done|]. intros (i & Hi & _). exfalso.
    assert (recordLeft (idFunction c) 0 lhs ∅ !! s = Some (0 + Z.of_nat i)) as Hs.
    { apply recordLeft_lookup. left. by exists i. }
    congruence.
Qed.

(** The third loop appends the values above [-1], in visiting order. *)
Lemma collectLeft_filter (visited : list (N * Z)) : ∀ uniqueLeft,
  collectLeft visited uniqueLeft =
    uniqueLeft ++ (snd <$> filter (λ kv, kv.2 > -1) visited).
Proof.
  induction visited as [|[k v] visited IH]; intros acc; simpl.
  - by rewrite app_nil_r.
  - rewrite filter_cons. simpl. case_decide.
    + rewrite IH, <-app_assoc. done.
    + by rewrite IH.
Qed.

Lemma sortInts_Permutation (a b : list Z) : a ≡ₚ b → sortInts a = sortInts b.
Proof.
  intros Hab. unfold sortInts.
  apply (Sorted_unique Z.le); try apply Sorted_merge_sort; try apply _.
  by rewrite !merge_sort_Permutation.
Qed.

Lemma sortInts_sorted (a : list Z) : StronglySorted Z.le (sortInts a).
Proof. apply StronglySorted_merge_sort; apply _. Qed.

Lemma elem_of_sortInts (a : list Z) v : v ∈ sortInts a ↔ v ∈ a.
Proof. unfold sortInts. by rewrite merge_sort_Permutation. Qed.

(** The order in which the map is visited does not show in the result. *)
Lemma exclusionVisiting_Permutation (visited visited' : list (N * Z)) :
  visited ≡ₚ visited' → exclusionVisiting visited = exclusionVisiting visited'.
Proof.
  intros Hp. unfold exclusionVisiting. apply sortInts_Permutation.
  rewrite !collectLeft_filter. simpl. by rewrite Hp.
Qed.

Lemma elem_of_exclusion_lookup c lhs rhs v :
  v ∈ exclusion c lhs rhs ↔
    ∃ s, leftSigsOf c lhs rhs !! s = Some v ∧ v > -1.
Proof.
  unfold exclusion, exclusionVisiting.
  rewrite elem_of_sortInts, collectLeft_filter. simpl.
  rewrite list_elem_of_fmap. split.
  - intros ([s w] & -> & Hin). apply list_elem_of_filter in Hin as [Hgt Hin].
    apply elem_of_map_to_list in Hin. by exists s.
  - intros (s & Hs & Hgt). exists (s, v). split; [done|].
    apply list_elem_of_filter. split; [done|]. by apply elem_of_map_to_list.
Qed.

(** A left index is selected exactly when it is the last position of
    its signature and no right-hand series has that signature. *)
Lemma elem_of_exclusion c lhs rhs v :
  v ∈ exclusion c lhs rhs ↔
    ∃ i s, v = Z.of_nat i ∧ lastWith (idFunction c) lhs s i ∧
           ¬ hasSig (idFunction c) rhs s.
Proof.
  rewrite elem_of_exclusion_lookup. split.
  - intros (s & Hs & Hgt). apply leftSigsOf_lookup in Hs as (i & Hi & Hv).
    case_decide; [lia|]. by exists i, s.
  - intros (i & s & -> & Hi & Hno). exists s. split; [|lia].
    apply leftSigsOf_lookup. exists i. split; [done|]. by rewrite decide_False.
Qed.

Lemma exclusion_NoDup c lhs rhs : NoDup (exclusion c lhs rhs).
Proof.
  unfold exclusion, exclusionVisiting, sortInts.
  rewrite merge_sort_Permutation, collectLeft_filter. simpl.
  apply NoDup_fmap_2_strong.
  - intros [s1 v1] [s2 v2] H1 H2 Hv. simpl in Hv. subst v2.
    apply list_elem_of_filter in H1 as [Hgt H1], H2 as [_ H2]. simpl in Hgt.
    apply elem_of_map_to_list, leftSigsOf_lookup in H1 as (i1 & L1 & E1).
    apply elem_of_map_to_list, leftSigsOf_lookup in H2 as (i2 & L2 & E2).
    repeat case_decide; try lia.
    assert (i1 = i2) as -> by lia.
    destruct L1 as [(m1 & Hm1 & <-) _], L2 as [(m2 & Hm2 & <-) _].
    congruence.
  - apply NoDup_filter, NoDup_map_to_list.
Qed.

Lemma StronglySorted_le_lt (a : list Z) :
  StronglySorted Z.le a → NoDup a → StronglySorted Z.lt a.
Proof.
  induction 1 as [|x a Hs IH Hx]; intros Hnd; [constructor|].
  apply NoDup_cons in Hnd as [Hx' Hnd]. constructor; [by apply IH|].
  rewrite Forall_forall in Hx |- *. intros y Hy.
  specialize (Hx y Hy). assert (x ≠ y) by (intros ->; done). lia.
Qed.

Lemma exclusion_ascending c lhs rhs : StronglySorted Z.lt (exclusion c lhs rhs).
Proof.
  apply StronglySorted_le_lt; [apply sortInts_sorted|apply exclusion_NoDup].
Qed.

Lemma exclusion_in_range c lhs rhs :
  Forall (λ idx, 0 ≤ idx < Z.of_nat (length lhs)) (exclusion c lhs rhs).
Proof.
  apply Forall_forall. intros v Hv.
  apply elem_of_exclusion in Hv as (i & s & -> & [(m & Hm & _) _] & _).
  apply lookup_lt_Some in Hm. lia.
Qed.
End exclusion_facts.

(** ** Properties of the loops of the block processor *)

Section process_facts.
Context `{Collaborators}.
Implicit Types (ids : list Z) (builder : Builder) (k : Z).

Lemma replay_app builder (calls calls' : list (Z * Value)) :
  replay builder (calls ++ calls') = replay (replay builder calls) calls'.
Proof. apply foldl_app. Qed.

Lemma sliceAt_Some {A} (s : list A) (i : Z) (x : A) :
  sliceAt s i = Some x ↔ 0 ≤ i ∧ s !! Z.to_nat i = Some x.
Proof. unfold sliceAt. case_decide; intuition (done || lia). Qed.

Lemma sliceAt_in_range {A} (s : list A) (i : Z) :
  0 ≤ i < Z.of_nat (length s) → is_Some (sliceAt s i).
Proof.
  intros Hi. unfold sliceAt. rewrite decide_True by lia.
  apply lookup_lt_is_Some. lia.
Qed.

Lemma sliceAt_of_nat {A} (s : list A) (i : nat) :
  sliceAt s (Z.of_nat i) = s !! i.
Proof. unfold sliceAt. rewrite decide_True by lia. by rewrite Nat2Z.id. Qed.

(** Picking in range never fails. *)
Lemma mapM_sliceAt_in_range {A} (s : list A) ids :
  Forall (λ idx, 0 ≤ idx < Z.of_nat (length s)) ids →
  is_Some (mapM (sliceAt s) ids).
Proof.
  intros Hr. apply mapM_is_Some.
  eapply Forall_impl; [done|]. intros idx. apply sliceAt_in_range.
Qed.

(** The metadata loop is a pick of the left list at [lIds]. *)
Lemma takeMeta_mapM (lSeriesMeta : list SeriesMeta) ids : ∀ takenMeta,
  takeMeta lSeriesMeta ids takenMeta =
    (λ taken, takenMeta ++ taken) <$> mapM (sliceAt lSeriesMeta) ids.
Proof.
  induction ids as [|idx ids IH]; intros acc; simpl.
  - by rewrite app_nil_r.
  - destruct (sliceAt lSeriesMeta idx) as [meta|]; simpl; [|done].
    rewrite IH. destruct (mapM _ ids); simpl; [|done].
    by rewrite <-app_assoc.
Qed.

(** One row of the value loop is a pick of the step's values. *)
Lemma appendRow_mapM ids k (values : list Value) : ∀ builder,
  appendRow ids k values builder =
    (λ row, replay builder ((λ v, (k, v)) <$> row)) <$> mapM (sliceAt values) ids.
Proof.
  induction ids as [|idx ids IH]; intros b; simpl; [done|].
  destruct (sliceAt values idx) as [v|]; simpl; [|done].
  rewrite IH. by destruct (mapM _ ids).
Qed.

(** Steps retrieved without error and picked without panic are
    appended row by row; the loop goes on with what follows them. *)
Lemma addValuesFrom_rows ids (vss rows : list (list Value)) :
  Forall2 (λ values row, mapM (sliceAt values) ids = Some row) vss rows →
  ∀ k builder remaining,
    addValuesFrom ids k ((inr <$> vss) ++ remaining) builder =
      addValuesFrom ids (k + Z.of_nat (length vss)) remaining
        (replay builder (callsOf k rows)).
Proof.
  induction 1 as [|values row vss rows Hrow Hrows IH]; intros k b rem; simpl.
  - by rewrite Z.add_0_r.
  - rewrite appendRow_mapM, Hrow. simpl. rewrite IH, replay_app.
    f_equal. lia.
Qed.

(** What the value loop went through, from how it ended. *)
Lemma addValuesFrom_inv ids : ∀ remaining k builder oerr builder',
  addValuesFrom ids k remaining builder = Some (oerr, builder') →
  ∃ vss rows post,
    Forall2 (λ values row, mapM (sliceAt values) ids = Some row) vss rows ∧
    builder' = replay builder (callsOf k rows) ∧
    match oerr with
    | None => remaining = inr <$> vss ∧ post = []
    | Some err => remaining = (inr <$> vss) ++ inl err :: post
    end.
Proof.
  induction remaining as [|[err|values] rem IH]; intros k b oerr b'; simpl.
  - intros [= <- <-]. by exists [], [], [].
  - intros [= <- <-]. by exists [], [], rem.
  - rewrite appendRow_mapM.
    destruct (mapM (sliceAt values) ids) as [row|] eqn:Hrow; simpl; [|done].
    intros (vss & rows & post & Hrows & -> & Hrem)%IH.
    exists (values :: vss), (row :: rows), post. split; [by constructor|].
    split; [simpl; by rewrite replay_app|].
    destruct oerr as [err|]; simpl.
    + by rewrite Hrem.
    + by destruct Hrem as [-> ->].
Qed.
End process_facts.

(** ** Properties of [Process] *)

Section process_theorems.
Context `{Collaborators}.
Implicit Types (c : UnlessNode) (lhs rhs : Block) (ctl : Controller)
  (lIter rIter : StepIter).

(** The survivor indices always pick from the left list. *)
Lemma takeMeta_exclusion c (lSeriesMeta rSeriesMeta : list SeriesMeta) :
  ∃ takenMeta,
    takeMeta lSeriesMeta (exclusion c lSeriesMeta rSeriesMeta) [] = Some takenMeta ∧
    projection lSeriesMeta (exclusion c lSeriesMeta rSeriesMeta) takenMeta.
Proof.
  destruct (mapM_sliceAt_in_range lSeriesMeta
              (exclusion c lSeriesMeta rSeriesMeta)) as [taken Ht].
  { apply exclusion_in_range. }
  exists taken. rewrite takeMeta_mapM, Ht. split; [done|].
  by apply mapM_Some in Ht.
Qed.

Lemma projection_mapM {A} (s : list A) (ids : list Z) (taken : list A) :
  mapM (sliceAt s) ids = Some taken → projection s ids taken.
Proof. apply mapM_Some. Qed.

Lemma projection_inj {A} (s : list A) (ids : list Z) (t1 t2 : list A) :
  projection s ids t1 → projection s ids t2 → t1 = t2.
Proof.
  unfold projection. intros H1%mapM_Some H2%mapM_Some. congruence.
Qed.

(** [Process] once both iterators are open and agree on the step
    count. *)
Lemma Process_selected c lhs rhs ctl lIter rIter takenMeta :
  blockStepIter lhs = inr lIter →
  blockStepIter rhs = inr rIter →
  StepCount lIter = StepCount rIter →
  projection (iterSeriesMeta lIter)
    (exclusion c (iterSeriesMeta lIter) (iterSeriesMeta rIter)) takenMeta →
  Process c lhs rhs ctl =
    match BlockBuilder ctl (Meta lIter) takenMeta with
    | (inl err, ctl') => (Return None (Some err), ctl')
    | (inr builder, ctl') =>
        match AddCols builder (StepCount lIter) with
        | inl err => (Return None (Some err), ctl')
        | inr builder1 =>
            match addValuesFrom
                    (exclusion c (iterSeriesMeta lIter) (iterSeriesMeta rIter))
                    0 (steps lIter) builder1 with
            | None => (Panic, ctl')
            | Some (Some err, _) => (Return None (Some err), ctl')
            | Some (None, builder2) => (Return (Some (Build builder2)) None, ctl')
            end
        end
    end.
Proof.
  intros Hl Hr Hn Hp. unfold Process. rewrite Hl, Hr.
  rewrite decide_False by (intros Hne; by apply Hne).
  destruct (takeMeta_exclusion c (iterSeriesMeta lIter) (iterSeriesMeta rIter))
    as (taken & -> & Hp').
  by rewrite (projection_inj _ _ _ _ Hp' Hp).
Qed.

(** [Process] when the iterators disagree on the step count. *)
Lemma Process_mismatched c lhs rhs ctl lIter rIter :
  blockStepIter lhs = inr lIter →
  blockStepIter rhs = inr rIter →
  StepCount lIter ≠ StepCount rIter →
  Process c lhs rhs ctl = (Return None (Some errMismatchedStepCounts), ctl).
Proof.
  intros Hl Hr Hn. unfold Process. rewrite Hl, Hr. by rewrite decide_True.
Qed.

(** What happened when [Process] hands back a block. *)
Lemma Process_block_inv c lhs rhs ctl out err ctl' :
  Process c lhs rhs ctl = (Return (Some out) err, ctl') →
  ∃ lIter rIter takenMeta vss rows,
    blockStepIter lhs = inr lIter ∧
    blockStepIter rhs = inr rIter ∧
    StepCount lIter = StepCount rIter ∧
    err = None ∧
    projection (iterSeriesMeta lIter)
      (exclusion c (iterSeriesMeta lIter) (iterSeriesMeta rIter)) takenMeta ∧
    steps lIter = inr <$> vss ∧
    Forall2 (λ values row,
               mapM (sliceAt values)
                 (exclusion c (iterSeriesMeta lIter) (iterSeriesMeta rIter))
               = Some row) vss rows ∧
    builtFrom ctl (Meta lIter) takenMeta (StepCount lIter) (callsOf 0 rows)
      out ctl'.
Proof.
  unfold Process.
  destruct (blockStepIter lhs) as [?|lIter] eqn:Hl; [done|].
  destruct (blockStepIter rhs) as [?|rIter] eqn:Hr; [done|].
  case_decide as Hn; [done|].
  destruct (takeMeta_exclusion c (iterSeriesMeta lIter) (iterSeriesMeta rIter))
    as (taken & -> & Hp).
  destruct (BlockBuilder ctl (Meta lIter) taken) as [[?|builder] ctl1] eqn:Hb;
    [done|].
  destruct (AddCols builder (StepCount lIter)) as [?|builder1] eqn:Ha; [done|].
  unfold addValuesAtIndeces.
  destruct (addValuesFrom _ 0 (steps lIter) builder1)
    as [[[e|] builder2]|] eqn:Hv; [done| |done].
  intros [= <- <- <-].
  apply addValuesFrom_inv in Hv as (vss & rows & post & Hrows & -> & Hs & _).
  exists lIter, rIter, taken, vss, rows. repeat split; try done.
  by exists builder, builder1.
Qed.
End process_theorems.

(** ** Ascending index lists *)

Section ascending.
Context `{Collaborators}.

Lemma ascending_NoDup (a : list Z) : StronglySorted Z.lt a → NoDup a.
Proof.
  induction 1 as [|x a Hs IH Hx]; constructor; [|done].
  intros Hin. rewrite Forall_forall in Hx. specialize (Hx x Hin). lia.
Qed.

Lemma ascending_le (a : list Z) : StronglySorted Z.lt a → StronglySorted Z.le a.
Proof.
  induction 1 as [|x a Hs IH Hx]; constructor; [done|].
  eapply Forall_impl; [exact Hx|]. intros y Hy. simpl in Hy. lia.
Qed.

(** Two strictly ascending lists with the same elements are equal. *)
Lemma ascending_ext (a b : list Z) :
  StronglySorted Z.lt a → StronglySorted Z.lt b →
  (∀ x, x ∈ a ↔ x ∈ b) → a = b.
Proof.
  intros Ha Hb Hab.
  apply (StronglySorted_unique Z.le).
  - by apply ascending_le.
  - by apply ascending_le.
  - apply NoDup_Permutation; auto using ascending_NoDup.
Qed.

Lemma seqZ_ascending (n : nat) :
  StronglySorted Z.lt (Z.of_nat <$> seq 0 n).
Proof.
  generalize 0%nat. induction n as [|n IH]; intros k; simpl; constructor.
  - apply IH.
  - apply Forall_forall. intros x (j & -> & Hj)%list_elem_of_fmap.
    apply elem_of_seq in Hj. lia.
Qed.

Lemma elem_of_seqZ (n : nat) (x : Z) :
  x ∈ Z.of_nat <$> seq 0 n ↔ 0 ≤ x < Z.of_nat n.
Proof.
  rewrite list_elem_of_fmap. split.
  - intros (j & -> & Hj). apply elem_of_seq in Hj. lia.
  - intros Hx. exists (Z.to_nat x). split; [lia|]. apply elem_of_seq. lia.
Qed.

(** Picking every position in order gives the list back. *)
Lemma mapM_sliceAt_all {A} (s : list A) :
  mapM (sliceAt s) (Z.of_nat <$> seq 0 (length s)) = Some s.
Proof.
  apply mapM_Some, Forall2_same_length_lookup_2.
  - by rewrite length_fmap, length_seq.
  - intros i idx x Hidx Hx. rewrite list_lookup_fmap in Hidx.
    destruct (seq 0 (length s) !! i) as [j|] eqn:Hj; [|done].
    apply lookup_seq in Hj as [-> _]. simpl in Hidx. injection Hidx as <-.
    by rewrite sliceAt_of_nat.
Qed.

(** With no right-hand series and pairwise different left signatures,
    every left index is selected. *)
Lemma exclusion_all c (lhs : list SeriesMeta) :
  NoDup ((λ meta, idFunction c (Tags meta)) <$> lhs) →
  exclusion c lhs [] = Z.of_nat <$> seq 0 (length lhs).
Proof.
  intros Hnd. apply ascending_ext.
  - apply exclusion_ascending.
  - apply seqZ_ascending.
  - intros x. rewrite elem_of_seqZ, elem_of_exclusion. split.
    + intros (i & s & -> & [(m & Hm & _) _] & _).
      apply lookup_lt_Some in Hm. lia.
    + intros Hx.
      destruct (lookup_lt_is_Some_2 lhs (Z.to_nat x)) as [m Hm]; [lia|].
      exists (Z.to_nat x), (idFunction c (Tags m)).
      split; [lia|]. split; [|apply hasSig_nil].
      split; [by exists m|]. intros j m' Hj Hs.
      assert (j = Z.to_nat x) as ->; [|done].
      eapply NoDup_lookup; [exact Hnd| |].
      * rewrite list_lookup_fmap, Hj. simpl. by rewrite Hs.
      * by rewrite list_lookup_fmap, Hm.
Qed.

(** The call that writes the value of position [j] of row [i], when
    all rows have [n] values. *)
Lemma callsOf_lookup (n : nat) (rows : list (list Value)) :
  Forall (λ row, length row = n) rows →
  ∀ k i j row v,
    rows !! i = Some row → row !! j = Some v →
    callsOf k rows !! (i * n + j)%nat = Some (k + Z.of_nat i, v).
Proof.
  induction 1 as [|row0 rows Hlen Hrows IH]; intros k i j row v Hi Hj;
    [by rewrite lookup_nil in Hi|].
  simpl. destruct i as [|i]; simpl in *.
  - injection Hi as ->. rewrite lookup_app_l.
    2:{ rewrite length_fmap. by eapply lookup_lt_Some. }
    rewrite list_lookup_fmap, Hj. simpl. by rewrite Z.add_0_r.
  - rewrite lookup_app_r; rewrite length_fmap, Hlen; [|lia].
    replace (n + i * n + j - n)%nat with (i * n + j)%nat by lia.
    rewrite (IH (k + 1) i j row v Hi Hj). do 2 f_equal. lia.
Qed.

Lemma callsOf_length (n : nat) (rows : list (list Value)) :
  Forall (λ row, length row = n) rows →
  ∀ k, length (callsOf k rows) = (length rows * n)%nat.
Proof.
  induction 1 as [|row rows Hlen Hrows IH]; intros k; simpl; [done|].
  by rewrite length_app, length_fmap, Hlen, IH.
Qed.

(** The value loop cannot panic on steps that carry one value per
    left series once the indices are in range. *)
Lemma addValuesFrom_no_panic (n : nat) (ids : list Z) :
  Forall (λ idx, 0 ≤ idx < Z.of_nat n) ids →
  ∀ (remaining : list (error + list Value)) k builder,
    Forall (λ step, match step with
                    | inl _ => True
                    | inr values => length values = n
                    end) remaining →
    is_Some (addValuesFrom ids k remaining builder).
Proof.
  intros Hids. induction remaining as [|[err|values] rem IH];
    intros k b Hal; simpl; [done..|].
  apply Forall_cons in Hal as [Hv Hal]. rewrite appendRow_mapM.
  destruct (mapM_sliceAt_in_range values ids) as [row ->];
    [by rewrite Hv|].
  simpl. by apply IH.
Qed.
(** With no index to pick, the value loop only walks the steps. *)
Lemma addValuesFrom_nil (vss : list (list Value)) : ∀ k builder,
  addValuesFrom [] k (inr <$> vss) builder = Some (None, builder).
Proof. induction vss as [|values vss IH]; intros k b; simpl; [done|apply IH]. Qed.

(** The rows of steps that have a value at every index. *)
Lemma rows_exist (ids : list Z) (vss : list (list Value)) :
  Forall (λ values, ∃ row, projection values ids row) vss →
  ∃ rows, Forall2 (λ values row, mapM (sliceAt values) ids = Some row) vss rows.
Proof.
  induction 1 as [|values vss [row Hrow] _ [rows IH]].
  - by exists [].
  - exists (row :: rows). constructor; [by apply mapM_Some|done].
Qed.

(** Picking every position of every step gives the steps back. *)
Lemma rows_verbatim (n : nat) (vss rows : list (list Value)) :
  Forall (λ values, length values = n) vss →
  Forall2 (λ values row,
             mapM (sliceAt values) (Z.of_nat <$> seq 0 n) = Some row) vss rows →
  rows = vss.
Proof.
  intros Hlen Hrows. revert Hlen.
  induction Hrows as [|values row vss rows Hrow _ IH]; intros Hlen; [done|].
  apply Forall_cons in Hlen as [Hv Hlen]. rewrite <-Hv, mapM_sliceAt_all in Hrow.
  injection Hrow as <-. f_equal. by apply IH.
Qed.

Lemma aligned_steps (iter : StepIter) (vss : list (list Value)) :
  aligned iter → steps iter = inr <$> vss →
  Forall (λ values, length values = length (iterSeriesMeta iter)) vss.
Proof.
  unfold aligned. intros Hal Hs. rewrite Hs, Forall_fmap in Hal.
  eapply Forall_impl; [exact Hal|]. by intros values.
Qed.

(** The selector on three left series of which the first and the last
    share a signature, and no right series. *)
Lemma exclusion_collapse c (a b d : SeriesMeta) :
  idFunction c (Tags a) = idFunction c (Tags d) →
  idFunction c (Tags b) ≠ idFunction c (Tags a) →
  exclusion c [a; b; d] [] = [1; 2].
Proof.
  intros Had Hba. apply ascending_ext.
  - apply exclusion_ascending.
  - repeat constructor; lia.
  - intros x. rewrite elem_of_exclusion. split.
    + intros (i & s & -> & [(m & Hm & Hs) Hlast] & _).
      destruct i as [|[|[|i]]]; simpl in Hm.
      * injection Hm as <-. specialize (Hlast 2%nat d eq_refl).
        rewrite <-Had in Hlast. specialize (Hlast Hs). lia.
      * apply elem_of_cons. by left.
      * apply elem_of_cons. right. apply elem_of_cons. by left.
      * by rewrite lookup_nil in Hm.
    + intros Hx. apply elem_of_cons in Hx as [->|Hx].
      * exists 1%nat, (idFunction c (Tags b)). split; [done|].
        split; [|apply hasSig_nil]. split; [by exists b|].
        intros [|[|[|j]]] m' Hj Hs; simpl in Hj;
          [lia|lia| |by rewrite lookup_nil in Hj].
        injection Hj as <-. congruence.
      * apply elem_of_cons in Hx as [->|Hx];
          [|by apply not_elem_of_nil in Hx].
        exists 2%nat, (idFunction c (Tags d)). split; [done|].
        split; [|apply hasSig_nil]. split; [by exists d|].
        intros j m' Hj _. apply lookup_lt_Some in Hj. simpl in Hj. lia.
Qed.

(** The selector when every left signature is also a right one. *)
Lemma exclusion_none c (lSeriesMeta rSeriesMeta : list SeriesMeta) :
  (∀ meta, meta ∈ lSeriesMeta →
     ∃ rs, rs ∈ rSeriesMeta ∧ idFunction c (Tags rs) = idFunction c (Tags meta)) →
  exclusion c lSeriesMeta rSeriesMeta = [].
Proof.
  intros Hall.
  destruct (exclusion c lSeriesMeta rSeriesMeta) as [|x rest] eqn:He; [done|].
  assert (x ∈ exclusion c lSeriesMeta rSeriesMeta) as Hx.
  { rewrite He. apply elem_of_cons. by left. }
  apply elem_of_exclusion in Hx as (i & s & _ & [(m & Hm & Hs) _] & Hno).
  destruct (Hall m) as (rs & Hin & Heq); [by eapply list_elem_of_lookup_2|].
  exfalso. apply Hno. exists rs. split; [done|congruence].
Qed.
End ascending.

(** ** The claims about the exclusion selector and the block processor *)

Section claims.
Context `{Collaborators}.
Implicit Types (c : UnlessNode) (lhs rhs : Block) (ctl : Controller)
  (lIter rIter : StepIter).

(** C4. When both iterators open and report unequal step counts,
    [Process] returns [errMismatchedStepCounts] and no block.  The
    controller is left in the state it was in, whatever its
    [BlockBuilder] does: no builder was requested. *)
Theorem step_count_guard c lhs rhs ctl lIter rIter :
  blockStepIter lhs = inr lIter →
  blockStepIter rhs = inr rIter →
  StepCount lIter ≠ StepCount rIter →
  Process c lhs rhs ctl = (Return None (Some errMismatchedStepCounts), ctl).
Proof. apply Process_mismatched. Qed.

(** C5. The list returned by [exclusion] is strictly ascending, hence
    without duplicates; its elements are indices into the left list;
    and it is the same list for every order in which the map
    iteration visits the signature map.  So the survivors come in the
    order of the left list. *)
Theorem exclusion_ordered c (lSeriesMeta rSeriesMeta : list SeriesMeta) :
  StronglySorted Z.lt (exclusion c lSeriesMeta rSeriesMeta) ∧
  NoDup (exclusion c lSeriesMeta rSeriesMeta) ∧
  Forall (λ idx, 0 ≤ idx < Z.of_nat (length lSeriesMeta))
    (exclusion c lSeriesMeta rSeriesMeta) ∧
  ∀ visited,
    visited ≡ₚ map_to_list (leftSigsOf c lSeriesMeta rSeriesMeta) →
    exclusionVisiting visited = exclusion c lSeriesMeta rSeriesMeta.
Proof.
  split; [apply exclusion_ascending|].
  split; [apply exclusion_NoDup|].
  split; [apply exclusion_in_range|].
  intros visited Hp. by apply exclusionVisiting_Permutation.
Qed.

(** C9. Every index returned by [exclusion] is a position of the left
    series-metadata list; and when every step of the left iterator
    carries one value per left series, [Process] does not panic:
    neither [lSeriesMeta[idx]] nor [values[idx]] goes out of range. *)
Theorem indexing_in_bounds c lhs rhs ctl lIter rIter :
  blockStepIter lhs = inr lIter →
  blockStepIter rhs = inr rIter →
  aligned lIter →
  Forall (λ idx, 0 ≤ idx < Z.of_nat (length (iterSeriesMeta lIter)))
    (exclusion c (iterSeriesMeta lIter) (iterSeriesMeta rIter)) ∧
  (∃ taken, takeMeta (iterSeriesMeta lIter)
              (exclusion c (iterSeriesMeta lIter) (iterSeriesMeta rIter)) []
            = Some taken) ∧
  (∀ builder, is_Some (addValuesAtIndeces
                (exclusion c (iterSeriesMeta lIter) (iterSeriesMeta rIter))
                lIter builder)) ∧
  (Process c lhs rhs ctl).1 ≠ Panic.
Proof.
  intros Hl Hr Hal.
  pose proof (exclusion_in_range c (iterSeriesMeta lIter) (iterSeriesMeta rIter))
    as Hrange.
  assert (∀ builder, is_Some (addValuesAtIndeces
            (exclusion c (iterSeriesMeta lIter) (iterSeriesMeta rIter))
            lIter builder)) as Hvals.
  { intros b. unfold addValuesAtIndeces.
    by apply (addValuesFrom_no_panic (length (iterSeriesMeta lIter))). }
  destruct (takeMeta_exclusion c (iterSeriesMeta lIter) (iterSeriesMeta rIter))
    as (taken & Ht & Hp).
  split; [done|]. split; [by exists taken|]. split; [done|].
  destruct (decide (StepCount lIter = StepCount rIter)) as [Hn|Hn].
  - rewrite (Process_selected c lhs rhs ctl lIter rIter taken) by done.
    destruct (BlockBuilder ctl (Meta lIter) taken) as [[?|b] ctl1]; [done|].
    destruct (AddCols b (StepCount lIter)) as [?|b1]; [done|].
    destruct (Hvals b1) as [[[e|] b2] Hb2]; unfold addValuesAtIndeces in Hb2;
      by rewrite Hb2.
  - by rewrite (Process_mismatched c lhs rhs ctl lIter rIter).
Qed.

(** C10. The right-hand block enters [Process] through its step count
    and its series metadata only: two right-hand blocks that agree on
    both give the same result and the same controller state, whatever
    their step values and block metadata are. *)
Theorem right_values_unread c lhs rhs rhs' ctl rIter rIter' :
  blockStepIter rhs = inr rIter →
  blockStepIter rhs' = inr rIter' →
  StepCount rIter = StepCount rIter' →
  iterSeriesMeta rIter = iterSeriesMeta rIter' →
  Process c lhs rhs ctl = Process c lhs rhs' ctl.
Proof.
  intros Hr Hr' Hn Hm. unfold Process. by rewrite Hr, Hr', Hn, Hm.
Qed.

(** C1 (amended). When [Process] hands back a block for blocks with
    equal step counts, the block is built for the left series at the
    survivor indices, and the left series at position [i] is among
    them if and only if no right-hand series shares its signature and
    no later left-hand series shares it either. *)
Theorem survivors_characterised c lhs rhs ctl lIter rIter out err ctl' :
  blockStepIter lhs = inr lIter →
  blockStepIter rhs = inr rIter →
  StepCount lIter = StepCount rIter →
  Process c lhs rhs ctl = (Return (Some out) err, ctl') →
  ∃ lIds takenMeta calls,
    lIds = exclusion c (iterSeriesMeta lIter) (iterSeriesMeta rIter) ∧
    projection (iterSeriesMeta lIter) lIds takenMeta ∧
    builtFrom ctl (Meta lIter) takenMeta (StepCount lIter) calls out ctl' ∧
    ∀ i meta,
      iterSeriesMeta lIter !! i = Some meta →
      (Z.of_nat i ∈ lIds ↔
         (∀ rs, rs ∈ iterSeriesMeta rIter →
                idFunction c (Tags rs) ≠ idFunction c (Tags meta)) ∧
         (∀ j meta', iterSeriesMeta lIter !! j = Some meta' →
                     idFunction c (Tags meta') = idFunction c (Tags meta) →
                     (j ≤ i)%nat)).
Proof.
  intros Hl Hr _ HP.
  apply Process_block_inv in HP
    as (l & r & taken & vss & rows & Hl' & Hr' & _ & _ & Hp & _ & _ & Hb).
  assert (l = lIter) as -> by congruence.
  assert (r = rIter) as -> by congruence.
  eexists _, taken, (callsOf 0 rows). split; [done|].
  split; [done|]. split; [done|].
  intros i meta Hi. rewrite elem_of_exclusion. split.
  - intros (i' & s & ->%Nat2Z.inj & [(m & Hm & Hs) Hlast] & Hno).
    assert (m = meta) as -> by congruence. subst s. split; [|done].
    intros rs Hin Heq. apply Hno. by exists rs.
  - intros [Hno Hlast]. exists i, (idFunction c (Tags meta)).
    split; [done|]. split.
    + split; [by exists meta|done].
    + intros (rs & Hin & Heq). by apply (Hno rs).
Qed.

(** C2. Left series [a], [b], [d] of which [a] and [d] have one
    signature and [b] another, and no right series: the selector
    returns the positions of [b] and [d] only, and a block handed
    back by [Process] is built for exactly [b] and [d]; the earlier
    series [a] is dropped. *)
Theorem duplicate_signature_collapse c lhs rhs ctl lIter rIter
    (a b d : SeriesMeta) :
  idFunction c (Tags a) = idFunction c (Tags d) →
  idFunction c (Tags b) ≠ idFunction c (Tags a) →
  blockStepIter lhs = inr lIter →
  blockStepIter rhs = inr rIter →
  StepCount lIter = StepCount rIter →
  iterSeriesMeta lIter = [a; b; d] →
  iterSeriesMeta rIter = [] →
  exclusion c [a; b; d] [] = [1; 2] ∧
  ∀ out err ctl',
    Process c lhs rhs ctl = (Return (Some out) err, ctl') →
    ∃ calls, builtFrom ctl (Meta lIter) [b; d] (StepCount lIter) calls out ctl'.
Proof.
  intros Had Hba Hl Hr _ Hlm Hrm.
  pose proof (exclusion_collapse c a b d Had Hba) as He.
  split; [done|]. intros out err ctl' HP.
  apply Process_block_inv in HP
    as (l & r & taken & vss & rows & Hl' & Hr' & _ & _ & Hp & _ & _ & Hb).
  assert (l = lIter) as -> by congruence.
  assert (r = rIter) as -> by congruence.
  rewrite Hlm, Hrm, He in Hp.
  assert (taken = [b; d]) as ->.
  { apply (projection_inj [a; b; d] [1; 2]); [done|]. by repeat constructor. }
  by exists (callsOf 0 rows).
Qed.

(** C3. When [Process] hands back a block, the block is built for
    the left series metadata at the survivor indices, in their
    ascending order, and from one [AppendValue] call per step and
    survivor: the call for step [i] and the [j]-th survivor, of left
    index [idx], has row [i] and the value at position [idx] of the
    values of step [i]. *)
Theorem value_fidelity c lhs rhs ctl lIter rIter out err ctl' :
  blockStepIter lhs = inr lIter →
  blockStepIter rhs = inr rIter →
  Process c lhs rhs ctl = (Return (Some out) err, ctl') →
  ∃ lIds takenMeta vss calls,
    lIds = exclusion c (iterSeriesMeta lIter) (iterSeriesMeta rIter) ∧
    StronglySorted Z.lt lIds ∧
    projection (iterSeriesMeta lIter) lIds takenMeta ∧
    steps lIter = inr <$> vss ∧
    builtFrom ctl (Meta lIter) takenMeta (StepCount lIter) calls out ctl' ∧
    length calls = (length vss * length lIds)%nat ∧
    ∀ i values j idx,
      vss !! i = Some values → lIds !! j = Some idx →
      ∃ v, sliceAt values idx = Some v ∧
           calls !! (i * length lIds + j)%nat = Some (Z.of_nat i, v).
Proof.
  intros Hl Hr HP.
  apply Process_block_inv in HP
    as (l & r & taken & vss & rows & Hl' & Hr' & _ & _ & Hp & Hs & Hrows & Hb).
  assert (l = lIter) as -> by congruence.
  assert (r = rIter) as -> by congruence.
  set (lIds := exclusion c (iterSeriesMeta lIter) (iterSeriesMeta rIter)) in *.
  assert (Forall (λ row : list Value, length row = length lIds) rows) as Hlen.
  { apply Forall_forall. intros row Hin.
    apply list_elem_of_lookup_1 in Hin as [i Hi].
    destruct (Forall2_lookup_r _ _ _ _ _ Hrows Hi) as (values & _ & Hrow).
    symmetry. by eapply length_mapM. }
  exists lIds, taken, vss, (callsOf 0 rows).
  split; [done|]. split; [apply exclusion_ascending|].
  split; [done|]. split; [done|]. split; [done|]. split.
  - rewrite (callsOf_length (length lIds)) by done.
    by rewrite (Forall2_length _ _ _ Hrows).
  - intros i values j idx Hi Hj.
    destruct (Forall2_lookup_l _ _ _ _ _ Hrows Hi) as (row & Hrow & Hpick).
    apply mapM_Some in Hpick.
    destruct (Forall2_lookup_l _ _ _ _ _ Hpick Hj) as (v & Hv & Hat).
    exists v. split; [done|].
    by rewrite (callsOf_lookup (length lIds) rows Hlen 0 i j row v).
Qed.

(** C6 (amended). When the right side has no series, the left
    signatures are pairwise different and every left step carries one
    value per left series, a block handed back by [Process] is built
    for the whole left series-metadata list, in its order, and from
    the values of every left step, in their order. *)
Theorem empty_right_keeps_left c lhs rhs ctl lIter rIter out err ctl' :
  blockStepIter lhs = inr lIter →
  blockStepIter rhs = inr rIter →
  iterSeriesMeta rIter = [] →
  NoDup ((λ meta, idFunction c (Tags meta)) <$> iterSeriesMeta lIter) →
  aligned lIter →
  Process c lhs rhs ctl = (Return (Some out) err, ctl') →
  ∃ vss,
    steps lIter = inr <$> vss ∧
    builtFrom ctl (Meta lIter) (iterSeriesMeta lIter) (StepCount lIter)
      (callsOf 0 vss) out ctl'.
Proof.
  intros Hl Hr Hrm Hnd Hal HP.
  apply Process_block_inv in HP
    as (l & r & taken & vss & rows & Hl' & Hr' & _ & _ & Hp & Hs & Hrows & Hb).
  assert (l = lIter) as -> by congruence.
  assert (r = rIter) as -> by congruence.
  rewrite Hrm, (exclusion_all c _ Hnd) in Hp, Hrows.
  assert (taken = iterSeriesMeta lIter) as ->.
  { eapply projection_inj; [exact Hp|]. apply mapM_Some, mapM_sliceAt_all. }
  assert (rows = vss) as ->.
  { eapply rows_verbatim; [|exact Hrows]. by apply aligned_steps. }
  by exists vss.
Qed.

(** C7. When every left signature is also a right one, which
    includes a left side without series, no index survives; and if
    the controller hands out a builder for no series, the builder
    allocates the columns and every step is retrieved, [Process]
    returns no error but the block of that builder: no series, as many
    columns as the left iterator has steps, no value. *)
Theorem full_exclusion_builds_empty c lhs rhs ctl lIter rIter
    builder builder1 vss ctl' :
  blockStepIter lhs = inr lIter →
  blockStepIter rhs = inr rIter →
  StepCount lIter = StepCount rIter →
  (∀ meta, meta ∈ iterSeriesMeta lIter →
     ∃ rs, rs ∈ iterSeriesMeta rIter ∧
           idFunction c (Tags rs) = idFunction c (Tags meta)) →
  BlockBuilder ctl (Meta lIter) [] = (inr builder, ctl') →
  AddCols builder (StepCount lIter) = inr builder1 →
  steps lIter = inr <$> vss →
  exclusion c (iterSeriesMeta lIter) (iterSeriesMeta rIter) = [] ∧
  Process c lhs rhs ctl = (Return (Some (Build builder1)) None, ctl').
Proof.
  intros Hl Hr Hn Hall Hb Ha Hs.
  pose proof (exclusion_none c _ _ Hall) as He. split; [done|].
  rewrite (Process_selected c lhs rhs ctl lIter rIter []); try done.
  - by rewrite Hb, Ha, He, Hs, addValuesFrom_nil.
  - rewrite He. constructor.
Qed.

(** C8. Whichever collaborator call fails first, opening the left or
    the right iterator, requesting the builder, allocating the
    columns or retrieving a step, [Process] returns the error of that
    call as it is, and no block. *)
Theorem errors_pass_through c lhs rhs ctl err ctl' :
  failsWith c lhs rhs ctl err ctl' →
  Process c lhs rhs ctl = (Return None (Some err), ctl').
Proof.
  intros [e Hl|l e Hl Hr|l r taken e ctl1 Hl Hr Hn Hp Hb
         |l r taken b e ctl1 Hl Hr Hn Hp Hb Ha
         |l r taken b b1 vss post e ctl1 Hl Hr Hn Hp Hb Ha Hs Hlen].
  - unfold Process. by rewrite Hl.
  - unfold Process. by rewrite Hl, Hr.
  - rewrite (Process_selected c lhs rhs ctl l r taken) by done. by rewrite Hb.
  - rewrite (Process_selected c lhs rhs ctl l r taken) by done.
    by rewrite Hb, Ha.
  - rewrite (Process_selected c lhs rhs ctl l r taken) by done.
    rewrite Hb, Ha, Hs.
    destruct (rows_exist (exclusion c (iterSeriesMeta l) (iterSeriesMeta r)) vss)
      as [rows Hrows]; [done|].
    by rewrite (addValuesFrom_rows _ vss rows Hrows).
Qed.
End claims.

(** ** Further properties of the exclusion selector *)

Section selector_laws.
Context `{Collaborators}.
Implicit Types (c : UnlessNode) (idf : TagSet → N)
  (lhs rhs : list SeriesMeta) (s : N).

Lemma hasSig_app idf (metas metas' : list SeriesMeta) s :
  hasSig idf (metas ++ metas') s ↔ hasSig idf metas s ∨ hasSig idf metas' s.
Proof.
  unfold hasSig. split.
  - intros (m & Hin & Hs). apply elem_of_app in Hin as [Hin|Hin]; eauto.
  - intros [(m & Hin & Hs)|(m & Hin & Hs)]; exists m;
      (split; [apply elem_of_app; eauto|done]).
Qed.

Lemma hasSig_lookup idf (metas : list SeriesMeta) (i : nat) meta :
  metas !! i = Some meta → hasSig idf metas (idf (Tags meta)).
Proof. intros Hi. exists meta. split; [by eapply list_elem_of_lookup_2|done]. Qed.

Lemma elem_of_signatures idf (metas : list SeriesMeta) s :
  s ∈ signatures idf metas ↔ hasSig idf metas s.
Proof.
  unfold signatures, hasSig. rewrite elem_of_list_to_set, list_elem_of_fmap.
  split; intros (m & ? & ?); exists m; done.
Qed.

(** A signature that occurs has a last position. *)
Lemma lastWith_exists idf lhs s : hasSig idf lhs s → ∃ i, lastWith idf lhs s i.
Proof.
  induction lhs as [|meta lhs IH]; intros Hs; [by apply hasSig_nil in Hs|].
  destruct (hasSig_dec idf lhs s) as [Hin|Hout].
  - destruct (IH Hin) as (i & (m & Hm & Hms) & Hlast). exists (S i).
    split; [by exists m|]. intros [|j] m' Hj Hs'; [lia|].
    apply le_n_S. by eapply Hlast.
  - apply hasSig_cons in Hs as [Hs|Hs]; [|done]. exists 0%nat.
    split; [by exists meta|]. intros [|j] m' Hj Hs'; [done|].
    exfalso. apply Hout. exists m'. split; [|done].
    simpl in Hj. by eapply list_elem_of_lookup_2.
Qed.

Lemma lastWith_sig idf lhs s (i : nat) meta :
  lastWith idf lhs s i → lhs !! i = Some meta → idf (Tags meta) = s.
Proof. intros [(m & Hm & Hs) _] Hi. congruence. Qed.

Lemma lastWith_inj idf lhs s (i j : nat) :
  lastWith idf lhs s i → lastWith idf lhs s j → i = j.
Proof.
  intros [(m & Hm & Hs) Hl] [(m' & Hm' & Hs') Hl'].
  apply Nat.le_antisymm; eauto.
Qed.

(** X1. The right-hand side counts through the set of its signatures
    only: two right-hand lists with the same signatures, in any order
    and with any repetition, select the same left indices. *)
Theorem exclusion_right_signatures c lhs rhs rhs' :
  (∀ rs, rs ∈ rhs →
     ∃ rs', rs' ∈ rhs' ∧ idFunction c (Tags rs') = idFunction c (Tags rs)) →
  (∀ rs', rs' ∈ rhs' →
     ∃ rs, rs ∈ rhs ∧ idFunction c (Tags rs) = idFunction c (Tags rs')) →
  exclusion c lhs rhs = exclusion c lhs rhs'.
Proof.
  intros Hsub Hsup.
  assert (∀ s, hasSig (idFunction c) rhs s ↔ hasSig (idFunction c) rhs' s) as Hsame.
  { intros s. split.
    - intros (rs & Hin & <-). destruct (Hsub rs Hin) as (rs' & Hin' & Heq).
      by exists rs'.
    - intros (rs' & Hin' & <-). destruct (Hsup rs' Hin') as (rs & Hin & Heq).
      by exists rs. }
  apply ascending_ext; try apply exclusion_ascending.
  intros x. rewrite !elem_of_exclusion.
  split; intros (i & s & -> & Hi & Hno); exists i, s;
    (split; [done|]; split; [done|]); intros Hs; by apply Hno, Hsame.
Qed.

(** An index survives [rhs ++ rhs'] if and only if it survives both. *)
Lemma elem_of_exclusion_app c lhs rhs rhs' (idx : Z) :
  idx ∈ exclusion c lhs (rhs ++ rhs') ↔
    idx ∈ exclusion c lhs rhs ∧ idx ∈ exclusion c lhs rhs'.
Proof.
  rewrite !elem_of_exclusion. split.
  - intros (i & s & -> & Hi & Hno). rewrite hasSig_app in Hno.
    split; exists i, s; (split; [done|]; split; [done|]); tauto.
  - intros [(i & s & -> & Hi & Hno) (i' & s' & Heq & Hi' & Hno')].
    apply Nat2Z.inj in Heq. subst i'.
    assert (s' = s) as ->.
    { destruct Hi as [(m & Hm & <-) _]. symmetry. by eapply lastWith_sig. }
    exists i, s. split; [done|]. split; [done|]. rewrite hasSig_app. tauto.
Qed.

(** X2. Excluding by two right-hand lists at once selects what each of
    them alone selects: an index survives [rhs ++ rhs'] if and only if
    it survives [rhs] and survives [rhs']. *)
Theorem exclusion_app c lhs rhs rhs' (idx : Z) :
  idx ∈ exclusion c lhs (rhs ++ rhs') ↔
    idx ∈ exclusion c lhs rhs ∧ idx ∈ exclusion c lhs rhs'.
Proof. apply elem_of_exclusion_app. Qed.

(** X3. The signature map that [exclusion] builds: its keys are
    exactly the signatures of the left series, whatever the right side
    is; and each value is either [-1], when a right series has the
    key's signature, or else the last left position of that
    signature. *)
Theorem leftSigs_invariant c lhs rhs :
  dom (leftSigsOf c lhs rhs) = signatures (idFunction c) lhs ∧
  ∀ s v,
    leftSigsOf c lhs rhs !! s = Some v →
    (v = -1 ∧ hasSig (idFunction c) rhs s) ∨
    (¬ hasSig (idFunction c) rhs s ∧
     ∃ i, v = Z.of_nat i ∧ lastWith (idFunction c) lhs s i).
Proof.
  split.
  - apply set_eq. intros s. rewrite elem_of_dom, elem_of_signatures. split.
    + intros [v Hv]. apply leftSigsOf_lookup in Hv as (i & [(m & Hm & <-) _] & _).
      by eapply hasSig_lookup.
    + intros Hs. destruct (lastWith_exists _ _ _ Hs) as [i Hi].
      eexists. apply leftSigsOf_lookup. by exists i.
  - intros s v Hv. apply leftSigsOf_lookup in Hv as (i & Hi & ->).
    case_decide; [by left|right]. split; [done|]. by exists i.
Qed.
(** What stands at a position of the survivor list. *)
Lemma exclusion_lookup c lhs rhs (p : nat) (idx : Z) :
  exclusion c lhs rhs !! p = Some idx →
  ∃ i meta, idx = Z.of_nat i ∧ lhs !! i = Some meta ∧
    lastWith (idFunction c) lhs (idFunction c (Tags meta)) i ∧
    ¬ hasSig (idFunction c) rhs (idFunction c (Tags meta)).
Proof.
  intros Hp. apply list_elem_of_lookup_2, elem_of_exclusion in Hp
    as (i & s & -> & Hi & Hno).
  destruct Hi as [(m & Hm & <-) Hlast]. exists i, m.
  repeat split; try done. by exists m.
Qed.

Lemma projection_lookup {A} (l : list A) (ids : list Z) (taken : list A)
    (p : nat) (x : A) :
  projection l ids taken → taken !! p = Some x →
  ∃ idx, ids !! p = Some idx ∧ sliceAt l idx = Some x.
Proof. intros Hp Hx. by destruct (Forall2_lookup_r _ _ _ _ _ Hp Hx) as (idx & ? & ?); eauto. Qed.

(** The survivors have pairwise different signatures. *)
Lemma survivors_distinct c lhs rhs (taken : list SeriesMeta) :
  projection lhs (exclusion c lhs rhs) taken →
  NoDup ((λ meta, idFunction c (Tags meta)) <$> taken).
Proof.
  intros Hp. apply NoDup_alt. intros p q s Hps Hqs.
  rewrite list_lookup_fmap in Hps, Hqs.
  destruct (taken !! p) as [m|] eqn:Hm; [|done].
  destruct (taken !! q) as [m'|] eqn:Hm'; [|done].
  simpl in Hps, Hqs. injection Hps as Hs. injection Hqs as Hs'.
  destruct (projection_lookup _ _ _ _ _ Hp Hm) as (idx & Hidx & Hat).
  destruct (projection_lookup _ _ _ _ _ Hp Hm') as (idx' & Hidx' & Hat').
  destruct (exclusion_lookup _ _ _ _ _ Hidx) as (i & mi & -> & Hi & Hl & _).
  destruct (exclusion_lookup _ _ _ _ _ Hidx') as (i' & mi' & -> & Hi' & Hl' & _).
  rewrite sliceAt_of_nat in Hat, Hat'.
  assert (mi = m) as -> by congruence. assert (mi' = m') as -> by congruence.
  rewrite Hs in Hl. rewrite Hs' in Hl'.
  rewrite (lastWith_inj _ _ _ _ _ Hl Hl') in Hidx.
  by eapply NoDup_lookup; [apply exclusion_NoDup|..].
Qed.

(** X4. The series that survive have pairwise different signatures,
    and their signatures are exactly the left signatures that are not
    right signatures; so there are as many survivors as such
    signatures. *)
Theorem survivors_signatures c lhs rhs (taken : list SeriesMeta) :
  projection lhs (exclusion c lhs rhs) taken →
  NoDup ((λ meta, idFunction c (Tags meta)) <$> taken) ∧
  signatures (idFunction c) taken
    = signatures (idFunction c) lhs ∖ signatures (idFunction c) rhs ∧
  length taken
    = size (signatures (idFunction c) lhs ∖ signatures (idFunction c) rhs).
Proof.
  intros Hp. pose proof (survivors_distinct c lhs rhs taken Hp) as Hnd.
  assert (signatures (idFunction c) taken
          = signatures (idFunction c) lhs ∖ signatures (idFunction c) rhs) as Heq.
  { apply set_eq. intros s.
    rewrite elem_of_difference, !elem_of_signatures. split.
    - intros (m & Hin & <-). apply list_elem_of_lookup_1 in Hin as [p Hm].
      destruct (projection_lookup _ _ _ _ _ Hp Hm) as (idx & Hidx & Hat).
      destruct (exclusion_lookup _ _ _ _ _ Hidx) as (i & mi & -> & Hi & _ & Hno).
      rewrite sliceAt_of_nat in Hat. assert (mi = m) as -> by congruence.
      split; [by eapply hasSig_lookup|done].
    - intros [Hl Hno]. destruct (lastWith_exists _ _ _ Hl) as [i Hi].
      assert (Z.of_nat i ∈ exclusion c lhs rhs) as Hin.
      { apply elem_of_exclusion. by exists i, s. }
      apply list_elem_of_lookup_1 in Hin as [p Hidx].
      destruct (Forall2_lookup_l _ _ _ _ _ Hp Hidx) as (m & Hm & Hat).
      rewrite sliceAt_of_nat in Hat. exists m.
      split; [by eapply list_elem_of_lookup_2|]. by eapply lastWith_sig. }
  split; [done|]. split; [done|].
  rewrite <-Heq. unfold signatures.
  by rewrite size_list_to_set, length_fmap.
Qed.

(** The selector on a left list whose signatures are pairwise
    different: every position qualifies as the last of its signature. *)
Lemma exclusion_distinct c (t rhs : list SeriesMeta) (x : Z) :
  NoDup ((λ meta, idFunction c (Tags meta)) <$> t) →
  x ∈ exclusion c t rhs ↔
    ∃ (p : nat) meta, x = Z.of_nat p ∧ t !! p = Some meta ∧
      ¬ hasSig (idFunction c) rhs (idFunction c (Tags meta)).
Proof.
  intros Hnd. rewrite elem_of_exclusion. split.
  - intros (i & s & -> & [(m & Hm & <-) _] & Hno). by exists i, m.
  - intros (p & m & -> & Hm & Hno). exists p, (idFunction c (Tags m)).
    split; [done|]. split; [|done]. split; [by exists m|].
    intros j m' Hj Hs. assert (j = p) as ->; [|done].
    eapply NoDup_lookup; [exact Hnd| |].
    + rewrite list_lookup_fmap, Hj. simpl. by rewrite Hs.
    + by rewrite list_lookup_fmap, Hm.
Qed.

(** X5. Excluding twice by the same right side changes nothing: on the
    series that survived, the selector run again with the same right
    side selects every position. *)
Theorem exclusion_idempotent c lhs rhs (taken : list SeriesMeta) :
  projection lhs (exclusion c lhs rhs) taken →
  exclusion c taken rhs = Z.of_nat <$> seq 0 (length taken).
Proof.
  intros Hp. apply ascending_ext.
  - apply exclusion_ascending.
  - apply seqZ_ascending.
  - intros x.
    rewrite elem_of_seqZ, (exclusion_distinct c taken rhs x)
      by by eapply survivors_distinct.
    split.
    + intros (p & m & -> & Hm & _). apply lookup_lt_Some in Hm. lia.
    + intros Hx.
      destruct (lookup_lt_is_Some_2 taken (Z.to_nat x)) as [m Hm]; [lia|].
      exists (Z.to_nat x), m. split; [lia|]. split; [done|].
      destruct (projection_lookup _ _ _ _ _ Hp Hm) as (idx & Hidx & Hat).
      destruct (exclusion_lookup _ _ _ _ _ Hidx) as (i & mi & -> & Hi & _ & Hno).
      rewrite sliceAt_of_nat in Hat. by assert (mi = m) as -> by congruence.
Qed.
(** In a strictly ascending list, later positions hold greater
    elements. *)
Lemma ascending_lookup_lt (a : list Z) :
  StronglySorted Z.lt a →
  ∀ (p q : nat) x y, a !! p = Some x → a !! q = Some y → (p < q)%nat → x < y.
Proof.
  induction 1 as [|z a Hs IH Hz]; intros p q x y Hp Hq Hpq;
    [by rewrite lookup_nil in Hp|].
  destruct q as [|q]; [lia|]. simpl in Hq. destruct p as [|p]; simpl in Hp.
  - injection Hp as <-. rewrite Forall_forall in Hz.
    apply Hz. by eapply list_elem_of_lookup_2.
  - apply (IH p q); [done..|lia].
Qed.

(** Picking a strictly ascending list at strictly ascending positions
    gives a strictly ascending list. *)
Lemma projection_ascending (a pos picked : list Z) :
  StronglySorted Z.lt a → StronglySorted Z.lt pos →
  projection a pos picked → StronglySorted Z.lt picked.
Proof.
  intros Ha Hpos Hp. revert Hpos.
  induction Hp as [|p x pos picked Hx Hrest IH]; intros Hpos; [constructor|].
  apply StronglySorted_inv in Hpos as [Hpos Hlt].
  constructor; [by apply IH|].
  apply Forall_forall. intros y Hy.
  apply list_elem_of_lookup_1 in Hy as [k Hk].
  destruct (Forall2_lookup_r _ _ _ _ _ Hrest Hk) as (q & Hq & Hy).
  rewrite Forall_forall in Hlt.
  assert (p < q) as Hpq by (apply Hlt; by eapply list_elem_of_lookup_2).
  apply sliceAt_Some in Hx as [Hp0 Hx]. apply sliceAt_Some in Hy as [Hq0 Hy].
  apply (ascending_lookup_lt a Ha (Z.to_nat p) (Z.to_nat q)); [done..|lia].
Qed.

(** X6. Two operators in a row amount to one: excluding by [rhs] and
    then, from the survivors, by [rhs'] leaves the same series in the
    same order as excluding by [rhs ++ rhs'] at once. *)
Theorem exclusion_chain c lhs rhs rhs' (taken taken' : list SeriesMeta) :
  projection lhs (exclusion c lhs rhs) taken →
  projection taken (exclusion c taken rhs') taken' →
  projection lhs (exclusion c lhs (rhs ++ rhs')) taken'.
Proof.
  intros Hp Hp'.
  pose proof (survivors_distinct c lhs rhs taken Hp) as Hnd.
  pose proof (Forall2_length _ _ _ Hp) as Hlen.
  (* the left indices of the second survivors *)
  destruct (mapM_sliceAt_in_range (exclusion c lhs rhs) (exclusion c taken rhs'))
    as [composed Hc].
  { rewrite Hlen. apply exclusion_in_range. }
  apply mapM_Some in Hc. fold (projection (exclusion c lhs rhs)
    (exclusion c taken rhs') composed) in Hc.
  assert (projection lhs composed taken') as Hpc.
  { apply Forall2_same_length_lookup_2.
    - by rewrite <-(Forall2_length _ _ _ Hc), (Forall2_length _ _ _ Hp').
    - intros q j m Hj Hm.
      destruct (projection_lookup _ _ _ _ _ Hc Hj) as (pz & Hpz & Hat).
      destruct (projection_lookup _ _ _ _ _ Hp' Hm) as (pz' & Hpz' & Hat').
      assert (pz' = pz) as -> by congruence.
      apply sliceAt_Some in Hat as [_ Hat]. apply sliceAt_Some in Hat' as [_ Hat'].
      by destruct (Forall2_lookup_lr _ _ _ _ _ _ Hp Hat Hat'). }
  assert (composed = exclusion c lhs (rhs ++ rhs')) as <-; [|done].
  apply ascending_ext.
  - eapply projection_ascending; [| |exact Hc]; apply exclusion_ascending.
  - apply exclusion_ascending.
  - intros x. rewrite elem_of_exclusion_app. split.
    + intros Hx. apply list_elem_of_lookup_1 in Hx as [q Hq].
      destruct (projection_lookup _ _ _ _ _ Hc Hq) as (pz & Hpz & Hat).
      apply sliceAt_Some in Hat as [Hp0 Hat].
      assert (x ∈ exclusion c lhs rhs) as Hin by by eapply list_elem_of_lookup_2.
      split; [done|].
      apply list_elem_of_lookup_2 in Hpz.
      apply (exclusion_distinct c taken rhs' pz Hnd) in Hpz
        as (p & m & -> & Hm & Hno').
      rewrite Nat2Z.id in Hat.
      destruct (exclusion_lookup _ _ _ _ _ Hat) as (i & mi & -> & Hi & Hl & Hno).
      pose proof (Forall2_lookup_lr _ _ _ _ _ _ Hp Hat Hm) as Hslice.
      simpl in Hslice. rewrite sliceAt_of_nat in Hslice.
      assert (mi = m) as -> by congruence.
      apply elem_of_exclusion. by exists i, (idFunction c (Tags m)).
    + intros [Hin Hin'].
      apply list_elem_of_lookup_1 in Hin as [p Hat].
      destruct (Forall2_lookup_l _ _ _ _ _ Hp Hat) as (m & Hm & Hslice).
      apply elem_of_exclusion in Hin' as (i & s & -> & Hi & Hno').
      rewrite sliceAt_of_nat in Hslice.
      rewrite <-(lastWith_sig _ _ _ _ _ Hi Hslice) in Hno'.
      assert (Z.of_nat p ∈ exclusion c taken rhs') as Hpos.
      { apply (exclusion_distinct c taken rhs' _ Hnd). by exists p, m. }
      apply list_elem_of_lookup_1 in Hpos as [q Hq].
      destruct (Forall2_lookup_l _ _ _ _ _ Hc Hq) as (j & Hj & Hjat).
      rewrite sliceAt_of_nat in Hjat.
      assert (j = Z.of_nat i) as -> by congruence.
      by eapply list_elem_of_lookup_2.
Qed.
(** X13. No left series is dropped exactly when the left signatures
    are pairwise different and none of them is a right signature. *)
Theorem nothing_dropped_iff c lhs rhs :
  exclusion c lhs rhs = Z.of_nat <$> seq 0 (length lhs) ↔
    NoDup ((λ meta, idFunction c (Tags meta)) <$> lhs) ∧
    ∀ meta rs, meta ∈ lhs → rs ∈ rhs →
      idFunction c (Tags rs) ≠ idFunction c (Tags meta).
Proof.
  split.
  - intros Hall.
    assert (∀ (i : nat) meta, lhs !! i = Some meta →
              lastWith (idFunction c) lhs (idFunction c (Tags meta)) i ∧
              ¬ hasSig (idFunction c) rhs (idFunction c (Tags meta))) as Hevery.
    { intros i meta Hi.
      assert (Z.of_nat i ∈ exclusion c lhs rhs) as Hin.
      { rewrite Hall. apply elem_of_seqZ. apply lookup_lt_Some in Hi. lia. }
      apply elem_of_exclusion in Hin as (i' & s & ->%Nat2Z.inj & Hl & Hno).
      by rewrite (lastWith_sig _ _ _ _ _ Hl Hi). }
    split.
    + apply NoDup_alt. intros i j s Hi Hj. rewrite list_lookup_fmap in Hi, Hj.
      destruct (lhs !! i) as [m|] eqn:Hm; [|done].
      destruct (lhs !! j) as [m'|] eqn:Hm'; [|done].
      simpl in Hi, Hj. injection Hi as Hs. injection Hj as Hs'.
      destruct (Hevery i m Hm) as [Hl _]. destruct (Hevery j m' Hm') as [Hl' _].
      rewrite Hs in Hl. rewrite Hs' in Hl'. by eapply lastWith_inj.
    + intros meta rs Hin Hrs Heq. apply list_elem_of_lookup_1 in Hin as [i Hi].
      destruct (Hevery i meta Hi) as [_ Hno]. apply Hno. by exists rs.
  - intros [Hnd Hno]. apply ascending_ext.
    + apply exclusion_ascending.
    + apply seqZ_ascending.
    + intros x. rewrite elem_of_seqZ, (exclusion_distinct c lhs rhs x Hnd). split.
      * intros (p & m & -> & Hm & _). apply lookup_lt_Some in Hm. lia.
      * intros Hx.
        destruct (lookup_lt_is_Some_2 lhs (Z.to_nat x)) as [m Hm]; [lia|].
        exists (Z.to_nat x), m. split; [lia|]. split; [done|].
        intros (rs & Hrs & Heq). apply (Hno m rs); [|done..].
        by eapply list_elem_of_lookup_2.
Qed.

(** X14. Left series appended after a series can evict it, and only
    by sharing its signature: a position of [lhs] survives in
    [lhs ++ extra] if and only if it survives in [lhs] and no series of
    [extra] has the signature of its series. *)
Theorem exclusion_left_app c lhs (extra : list SeriesMeta) rhs (i : nat) meta :
  lhs !! i = Some meta →
  (Z.of_nat i ∈ exclusion c (lhs ++ extra) rhs ↔
     Z.of_nat i ∈ exclusion c lhs rhs ∧
     ∀ m, m ∈ extra → idFunction c (Tags m) ≠ idFunction c (Tags meta)).
Proof.
  intros Hi. pose proof (lookup_lt_Some _ _ _ Hi) as Hlt.
  rewrite !elem_of_exclusion. split.
  - intros (i' & s & ->%Nat2Z.inj & Hl & Hno).
    assert (idFunction c (Tags meta) = s) as Hs.
    { eapply lastWith_sig; [exact Hl|]. by rewrite lookup_app_l. }
    destruct Hl as [_ Hlast]. split.
    + exists i', s. split; [done|]. split; [|done]. split; [by exists meta|].
      intros j m' Hj. apply Hlast. by apply lookup_app_l_Some.
    + intros m Hin Heq. apply list_elem_of_lookup_1 in Hin as [k Hk].
      assert (length lhs + k ≤ i')%nat; [|lia].
      apply (Hlast _ m); [|congruence].
      rewrite lookup_app_r by lia. by replace (length lhs + k - length lhs)%nat with k by lia.
  - intros [(i' & s & ->%Nat2Z.inj & Hl & Hno) Hextra].
    pose proof (lastWith_sig _ _ _ _ _ Hl Hi) as Hs.
    exists i', s. split; [done|]. split; [|done]. split.
    + exists meta. split; [by apply lookup_app_l_Some|done].
    + intros j m' Hj Hs'. apply lookup_app_Some in Hj as [Hj|[_ Hj]].
      * destruct Hl as [_ Hlast]. by eapply Hlast.
      * exfalso. apply (Hextra m'); [by eapply list_elem_of_lookup_2|congruence].
Qed.
End selector_laws.

(** ** Further properties of the block processor *)

Section processor_laws.
Context `{Collaborators}.
Implicit Types (c : UnlessNode) (lhs rhs : Block) (ctl : Controller)
  (lIter rIter : StepIter) (ids : list Z).

Lemma rows_projection ids (vss rows : list (list Value)) :
  Forall2 (λ values row, mapM (sliceAt values) ids = Some row) vss rows ↔
  Forall2 (λ values row, projection values ids row) vss rows.
Proof.
  split; intros HF; (eapply Forall2_impl; [exact HF|]);
    intros values row; unfold projection; by rewrite mapM_Some.
Qed.

Lemma rows_before ids (vss rows : list (list Value)) :
  Forall2 (λ values row, mapM (sliceAt values) ids = Some row) vss rows →
  Forall (λ values, ∃ row, projection values ids row) vss.
Proof.
  induction 1 as [|values row vss rows Hrow _ IH]; constructor; [|done].
  exists row. by apply mapM_Some.
Qed.



(** X7. [Process] returns a block, and then no error, exactly when
    both iterators open with equal step counts, the controller hands
    out a builder for the survivors' metadata, the columns are
    allocated, and every step is retrieved without error and has a
    value at every survivor index; the block is then built from the
    rows of those values. *)
Theorem Process_succeeds_iff c lhs rhs ctl out ctl' :
  Process c lhs rhs ctl = (Return (Some out) None, ctl') ↔
  ∃ lIter rIter takenMeta vss rows,
    blockStepIter lhs = inr lIter ∧
    blockStepIter rhs = inr rIter ∧
    StepCount lIter = StepCount rIter ∧
    projection (iterSeriesMeta lIter)
      (exclusion c (iterSeriesMeta lIter) (iterSeriesMeta rIter)) takenMeta ∧
    steps lIter = inr <$> vss ∧
    Forall2 (λ values row,
               projection values
                 (exclusion c (iterSeriesMeta lIter) (iterSeriesMeta rIter)) row)
      vss rows ∧
    builtFrom ctl (Meta lIter) takenMeta (StepCount lIter) (callsOf 0 rows)
      out ctl'.
Proof.
  split.
  - intros HP. apply Process_block_inv in HP
      as (l & r & taken & vss & rows & Hl & Hr & Hn & _ & Hp & Hs & Hrows & Hb).
    exists l, r, taken, vss, rows. repeat (split; [done|]).
    split; [by apply rows_projection|done].
  - intros (l & r & taken & vss & rows & Hl & Hr & Hn & Hp & Hs & Hrows
            & b & b1 & Hb & Ha & ->).
    rewrite (Process_selected c lhs rhs ctl l r taken) by done.
    rewrite Hb, Ha, Hs. apply rows_projection in Hrows.
    rewrite <-(app_nil_r (inr <$> vss)).
    by rewrite (addValuesFrom_rows _ vss rows Hrows).
Qed.

(** X8. Whatever [Process] returns is a block without an error or an
    error without a block; and the error is either
    [errMismatchedStepCounts], raised for unequal step counts before
    the controller is touched, or the error of a collaborator call.
    [errMismatchedBounds] and [errConflictingTags] are never raised by
    [Process] itself. *)
Theorem Process_returns c lhs rhs ctl blk err ctl' :
  Process c lhs rhs ctl = (Return blk err, ctl') →
  (∃ out, blk = Some out ∧ err = None) ∨
  (blk = None ∧ ∃ e, err = Some e ∧
     ((∃ lIter rIter,
         blockStepIter lhs = inr lIter ∧ blockStepIter rhs = inr rIter ∧
         StepCount lIter ≠ StepCount rIter ∧
         e = errMismatchedStepCounts ∧ ctl' = ctl) ∨
      failsWith c lhs rhs ctl e ctl')).
Proof.
  unfold Process.
  destruct (blockStepIter lhs) as [e|l] eqn:Hl.
  { intros [= <- <- <-]. right. split; [done|]. exists e. split; [done|].
    right. by apply fails_left. }
  destruct (blockStepIter rhs) as [e|r] eqn:Hr.
  { intros [= <- <- <-]. right. split; [done|]. exists e. split; [done|].
    right. by eapply fails_right. }
  case_decide as Hn.
  { intros [= <- <- <-]. right. split; [done|]. eexists. split; [done|].
    left. by exists l, r. }
  destruct (takeMeta_exclusion c (iterSeriesMeta l) (iterSeriesMeta r))
    as (taken & -> & Hp).
  destruct (BlockBuilder ctl (Meta l) taken) as [[e|b] ctl1] eqn:Hb.
  { intros [= <- <- <-]. right. split; [done|]. exists e. split; [done|].
    right. by eapply fails_builder. }
  destruct (AddCols b (StepCount l)) as [e|b1] eqn:Ha.
  { intros [= <- <- <-]. right. split; [done|]. exists e. split; [done|].
    right. by eapply fails_columns. }
  unfold addValuesAtIndeces.
  destruct (addValuesFrom _ 0 (steps l) b1) as [[[e|] b2]|] eqn:Hv; [| |done].
  - intros [= <- <- <-]. right. split; [done|]. exists e. split; [done|].
    right. apply addValuesFrom_inv in Hv as (vss & rows & post & Hrows & _ & Hs).
    eapply fails_step; try done. by eapply rows_before.
  - intros [= <- <- <-]. left. by eexists.
Qed.

(** The value loop stops at the first error. *)
Lemma addValuesFrom_cut ids (err : error)
    (post post' : list (error + list Value)) :
  ∀ (pre : list (error + list Value)) k builder,
    addValuesFrom ids k (pre ++ inl err :: post) builder
    = addValuesFrom ids k (pre ++ inl err :: post') builder.
Proof.
  induction pre as [|[e|values] pre IH]; intros k b; simpl; [done..|].
  destruct (appendRow ids k values b); [apply IH|done].
Qed.

(** The value loop reads the steps at the indices it is given only. *)
Lemma addValuesFrom_agree ids (remaining remaining' : list (error + list Value)) :
  Forall2 (λ step step',
             match step, step' with
             | inl e, inl e' => e = e'
             | inr values, inr values' =>
                 ∀ idx, idx ∈ ids → sliceAt values idx = sliceAt values' idx
             | _, _ => False
             end) remaining remaining' →
  ∀ k builder,
    addValuesFrom ids k remaining builder = addValuesFrom ids k remaining' builder.
Proof.
  induction 1 as [|[e|values] [e'|values'] rem rem' Hstep _ IH];
    intros k b; simpl; try done.
  - by rewrite Hstep.
  - rewrite !appendRow_mapM.
    rewrite (Forall_mapM_ext (sliceAt values) (sliceAt values') ids)
      by by apply Forall_forall.
    destruct (mapM (sliceAt values') ids); simpl; [apply IH|done].
Qed.

(** [Process] on two left blocks whose iterators differ in their steps
    only, when the value loop cannot tell the steps apart. *)
Lemma Process_left_steps c lhs lhs' rhs ctl lIter lIter' rIter :
  blockStepIter lhs = inr lIter →
  blockStepIter lhs' = inr lIter' →
  blockStepIter rhs = inr rIter →
  StepCount lIter = StepCount lIter' →
  iterSeriesMeta lIter = iterSeriesMeta lIter' →
  Meta lIter = Meta lIter' →
  (∀ builder,
     addValuesFrom (exclusion c (iterSeriesMeta lIter) (iterSeriesMeta rIter))
       0 (steps lIter) builder
     = addValuesFrom (exclusion c (iterSeriesMeta lIter) (iterSeriesMeta rIter))
         0 (steps lIter') builder) →
  Process c lhs rhs ctl = Process c lhs' rhs ctl.
Proof.
  intros Hl Hl' Hr Hn Hm HM Hsame. unfold Process, addValuesAtIndeces.
  rewrite Hl, Hl', Hr, <-Hn, <-Hm, <-HM.
  case_decide; [done|].
  destruct (takeMeta _ _ []) as [taken|]; [|done].
  destruct (BlockBuilder ctl (Meta lIter) taken) as [[?|b] ctl1]; [done|].
  destruct (AddCols b (StepCount lIter)) as [?|b1]; [done|].
  by rewrite Hsame.
Qed.

(** X10. Once the retrieval of a step has failed, no later step is
    looked at: two left blocks that agree on everything up to and
    including a failing step give the same result, whatever follows
    that step. *)
Theorem steps_after_error_unread c lhs lhs' rhs ctl lIter lIter' rIter
    (pre post post' : list (error + list Value)) (err : error) :
  blockStepIter lhs = inr lIter →
  blockStepIter lhs' = inr lIter' →
  blockStepIter rhs = inr rIter →
  StepCount lIter = StepCount lIter' →
  iterSeriesMeta lIter = iterSeriesMeta lIter' →
  Meta lIter = Meta lIter' →
  steps lIter = pre ++ inl err :: post →
  steps lIter' = pre ++ inl err :: post' →
  Process c lhs rhs ctl = Process c lhs' rhs ctl.
Proof.
  intros Hl Hl' Hr Hn Hm HM Hs Hs'.
  eapply Process_left_steps; try done.
  intros b. rewrite Hs, Hs'. apply addValuesFrom_cut.
Qed.

(** X11. The values of the series that are excluded are never read:
    two left blocks with the same metadata whose steps fail alike and
    agree at every survivor index give the same result, whatever
    their values at the other positions are. *)
Theorem excluded_values_unread c lhs lhs' rhs ctl lIter lIter' rIter :
  blockStepIter lhs = inr lIter →
  blockStepIter lhs' = inr lIter' →
  blockStepIter rhs = inr rIter →
  StepCount lIter = StepCount lIter' →
  iterSeriesMeta lIter = iterSeriesMeta lIter' →
  Meta lIter = Meta lIter' →
  Forall2 (λ step step',
             match step, step' with
             | inl e, inl e' => e = e'
             | inr values, inr values' =>
                 ∀ idx,
                   idx ∈ exclusion c (iterSeriesMeta lIter) (iterSeriesMeta rIter) →
                   sliceAt values idx = sliceAt values' idx
             | _, _ => False
             end) (steps lIter) (steps lIter') →
  Process c lhs rhs ctl = Process c lhs' rhs ctl.
Proof.
  intros Hl Hl' Hr Hn Hm HM Hs.
  eapply Process_left_steps; try done.
  intros b. by apply addValuesFrom_agree.
Qed.

(** X12. [addValuesAtIndeces] fills the builder row by row, numbering
    the rows from [0]: when it returns an error, the builder has got
    the complete rows of the steps before the failing one, and nothing
    of the steps after it; when it returns [nil], the builder has got
    a row for every step. *)
Theorem addValuesAtIndeces_rows ids (iter : StepIter) (builder builder' : Builder)
    (oerr : option error) :
  addValuesAtIndeces ids iter builder = Some (oerr, builder') →
  ∃ vss rows,
    Forall2 (λ values row, projection values ids row) vss rows ∧
    builder' = replay builder (callsOf 0 rows) ∧
    match oerr with
    | None => steps iter = inr <$> vss
    | Some err => ∃ post, steps iter = (inr <$> vss) ++ inl err :: post
    end.
Proof.
  unfold addValuesAtIndeces.
  intros (vss & rows & post & Hrows & -> & Hs)%addValuesFrom_inv.
  exists vss, rows. split; [by apply rows_projection|]. split; [done|].
  destruct oerr as [err|]; [by exists post|by destruct Hs].
Qed.
End processor_laws.

(** ** The operator on sample blocks *)

Import Sample.

(** C1, as stated, fails: [A] is the first of three left series, no
    right series shares its signature (there is none), and yet its
    index is not selected and the block returned holds [B] and [C]
    only. *)
Lemma survives_iff_unmatched_fails :
  Process onTag (blockOf itABC) (blockOf itNone) fresh
    = (Return (Some outBC) None, spent) ∧
  ¬ (Z.of_nat 0 ∈ exclusion onTag [A; B; C] [] ↔
     ∀ rs, rs ∈ [] → idFunction onTag (Tags rs) ≠ idFunction onTag (Tags A)).
Proof.
  split; [by vm_compute|].
  intros [_ Hsel].
  assert (Z.of_nat 0 ∈ exclusion onTag [A; B; C] []) as Hin.
  { apply Hsel. intros rs Hrs. by apply not_elem_of_nil in Hrs. }
  vm_compute in Hin.
  apply elem_of_cons in Hin as [Hin|Hin]; [done|].
  apply elem_of_cons in Hin as [Hin|Hin]; [done|].
  by apply not_elem_of_nil in Hin.
Qed.

(** C1 at work: the right series [R] shares the signature of [A] and
    [C]; the block returned holds [B] alone. *)
Lemma survivors_characterised_witness :
  blockStepIter (blockOf itABC) = inr itABC ∧
  blockStepIter (blockOf itX) = inr itX ∧
  StepCount itABC = StepCount itX ∧
  Process onTag (blockOf itABC) (blockOf itX) fresh
    = (Return (Some outB) None, spent) ∧
  ∃ lIds takenMeta calls,
    lIds = exclusion onTag (iterSeriesMeta itABC) (iterSeriesMeta itX) ∧
    projection (iterSeriesMeta itABC) lIds takenMeta ∧
    builtFrom fresh (Meta itABC) takenMeta (StepCount itABC) calls outB spent ∧
    ∀ i meta,
      iterSeriesMeta itABC !! i = Some meta →
      (Z.of_nat i ∈ lIds ↔
         (∀ rs, rs ∈ iterSeriesMeta itX →
                idFunction onTag (Tags rs) ≠ idFunction onTag (Tags meta)) ∧
         (∀ j meta', iterSeriesMeta itABC !! j = Some meta' →
                     idFunction onTag (Tags meta') = idFunction onTag (Tags meta) →
                     (j ≤ i)%nat)).
Proof.
  assert (blockStepIter (blockOf itABC) = inr itABC) as Hl by reflexivity.
  assert (blockStepIter (blockOf itX) = inr itX) as Hr by reflexivity.
  assert (StepCount itABC = StepCount itX) as Hn by reflexivity.
  assert (Process onTag (blockOf itABC) (blockOf itX) fresh
          = (Return (Some outB) None, spent)) as HP by (vm_compute; reflexivity).
  repeat (split; [assumption|]).
  exact (survivors_characterised onTag (blockOf itABC) (blockOf itX) fresh
           itABC itX outB None spent Hl Hr Hn HP).
Defined.

(** C2 at work, on the series [A{tag=x}], [B{tag=y}], [C{tag=x}]
    matched on the label [tag]: what [Process] returns holds [B] and
    [C]. *)
Lemma duplicate_signature_collapse_witness :
  idFunction onTag (Tags A) = idFunction onTag (Tags C) ∧
  idFunction onTag (Tags B) ≠ idFunction onTag (Tags A) ∧
  Process onTag (blockOf itABC) (blockOf itNone) fresh
    = (Return (Some outBC) None, spent) ∧
  exclusion onTag [A; B; C] [] = [1; 2] ∧
  ∀ out err ctl',
    Process onTag (blockOf itABC) (blockOf itNone) fresh
      = (Return (Some out) err, ctl') →
    ∃ calls, builtFrom fresh (Meta itABC) [B; C] (StepCount itABC) calls out ctl'.
Proof.
  assert (idFunction onTag (Tags A) = idFunction onTag (Tags C)) as Hac
    by reflexivity.
  assert (idFunction onTag (Tags B) ≠ idFunction onTag (Tags A)) as Hba
    by (vm_compute; discriminate).
  split; [exact Hac|]. split; [exact Hba|].
  split; [vm_compute; reflexivity|].
  exact (duplicate_signature_collapse onTag (blockOf itABC) (blockOf itNone)
           fresh itABC itNone A B C Hac Hba eq_refl eq_refl eq_refl eq_refl
           eq_refl).
Defined.

(** C3 at work on the same blocks: the values of [B] and [C] are
    appended as they stand in the left steps. *)
Lemma value_fidelity_witness :
  Process onTag (blockOf itABC) (blockOf itNone) fresh
    = (Return (Some outBC) None, spent) ∧
  ∃ lIds takenMeta vss calls,
    lIds = exclusion onTag (iterSeriesMeta itABC) (iterSeriesMeta itNone) ∧
    StronglySorted Z.lt lIds ∧
    projection (iterSeriesMeta itABC) lIds takenMeta ∧
    steps itABC = inr <$> vss ∧
    builtFrom fresh (Meta itABC) takenMeta (StepCount itABC) calls outBC spent ∧
    length calls = (length vss * length lIds)%nat ∧
    ∀ i values j idx,
      vss !! i = Some values → lIds !! j = Some idx →
      ∃ v, sliceAt values idx = Some v ∧
           calls !! (i * length lIds + j)%nat = Some (Z.of_nat i, v).
Proof.
  assert (Process onTag (blockOf itABC) (blockOf itNone) fresh
          = (Return (Some outBC) None, spent)) as HP by (vm_compute; reflexivity).
  split; [exact HP|].
  exact (value_fidelity onTag (blockOf itABC) (blockOf itNone) fresh itABC itNone
           outBC None spent eq_refl eq_refl HP).
Defined.

(** C4 at work: five steps on the left, six on the right; the
    controller has not been asked for a builder. *)
Lemma step_count_guard_witness :
  StepCount itFive ≠ StepCount itSix ∧
  Process onTag (blockOf itFive) (blockOf itSix) fresh
    = (Return None (Some errMismatchedStepCounts), fresh) ∧
  requests (Process onTag (blockOf itFive) (blockOf itSix) fresh).2 = 0%nat.
Proof.
  assert (StepCount itFive ≠ StepCount itSix) as Hn by (vm_compute; discriminate).
  split; [exact Hn|].
  assert (Process onTag (blockOf itFive) (blockOf itSix) fresh
          = (Return None (Some errMismatchedStepCounts), fresh)) as HP.
  { exact (step_count_guard onTag (blockOf itFive) (blockOf itSix) fresh
             itFive itSix eq_refl eq_refl Hn). }
  split; [exact HP|]. by rewrite HP.
Defined.

(** C5 at work: the map visited backwards gives the same list. *)
Lemma exclusion_ordered_witness :
  exclusionVisiting (reverse (map_to_list (leftSigsOf onTag [A; B; C] [])))
    = exclusion onTag [A; B; C] [].
Proof.
  apply (@exclusion_ordered sampleData onTag [A; B; C] []).
  apply reverse_Permutation.
Defined.

(** C6, as stated, fails: with no right series the block returned is
    not the left block; it lost the series [A] and its values. *)
Lemma empty_right_verbatim_fails :
  iterSeriesMeta itNone = [] ∧
  Process onTag (blockOf itABC) (blockOf itNone) fresh
    = (Return (Some outBC) None, spent) ∧
  outBC ≠ blockOf itABC.
Proof.
  split; [reflexivity|]. split; [by vm_compute|]. discriminate.
Qed.

(** C6 as amended, at work: [A] and [B] have different signatures and
    are both kept, with their values. *)
Lemma empty_right_keeps_left_witness :
  iterSeriesMeta itNone = [] ∧
  NoDup ((λ meta, idFunction onTag (Tags meta)) <$> iterSeriesMeta itAB) ∧
  aligned itAB ∧
  Process onTag (blockOf itAB) (blockOf itNone) fresh
    = (Return (Some outAB) None, spent) ∧
  ∃ vss,
    steps itAB = inr <$> vss ∧
    builtFrom fresh (Meta itAB) (iterSeriesMeta itAB) (StepCount itAB)
      (callsOf 0 vss) outAB spent.
Proof.
  assert (NoDup ((λ meta, idFunction onTag (Tags meta)) <$> iterSeriesMeta itAB))
    as Hnd.
  { vm_compute. apply NoDup_cons. split.
    - intros Hin. apply elem_of_cons in Hin as [Hin|Hin]; [discriminate|].
      by apply not_elem_of_nil in Hin.
    - apply NoDup_singleton. }
  assert (aligned itAB) as Hal by (repeat constructor).
  assert (Process onTag (blockOf itAB) (blockOf itNone) fresh
          = (Return (Some outAB) None, spent)) as HP by (vm_compute; reflexivity).
  split; [reflexivity|]. split; [exact Hnd|]. split; [exact Hal|].
  split; [exact HP|].
  exact (empty_right_keeps_left onTag (blockOf itAB) (blockOf itNone) fresh
           itAB itNone outAB None spent eq_refl eq_refl eq_refl Hnd Hal HP).
Defined.

(** C7 at work: [A] and [C] both have the signature of the right
    series [R]; the block returned has no series and two columns. *)
Lemma full_exclusion_builds_empty_witness :
  StepCount itAC = StepCount itX ∧
  (∀ meta, meta ∈ iterSeriesMeta itAC →
     ∃ rs, rs ∈ iterSeriesMeta itX ∧
           idFunction onTag (Tags rs) = idFunction onTag (Tags meta)) ∧
  BlockBuilder fresh (Meta itAC) [] = (inr emptyBuilder, spent) ∧
  AddCols emptyBuilder (StepCount itAC) = inr twoColumns ∧
  steps itAC = inr <$> [[1; 3]; [4; 6]] ∧
  exclusion onTag (iterSeriesMeta itAC) (iterSeriesMeta itX) = [] ∧
  Process onTag (blockOf itAC) (blockOf itX) fresh
    = (Return (Some (Build twoColumns)) None, spent).
Proof.
  assert (∀ meta, meta ∈ iterSeriesMeta itAC →
            ∃ rs, rs ∈ iterSeriesMeta itX ∧
                  idFunction onTag (Tags rs) = idFunction onTag (Tags meta))
    as Hall.
  { intros meta Hin. exists (series "R" "x"). split; [apply list_elem_of_here|].
    apply elem_of_cons in Hin as [->|Hin]; [reflexivity|].
    apply elem_of_cons in Hin as [->|Hin]; [reflexivity|].
    by apply not_elem_of_nil in Hin. }
  split; [reflexivity|]. split; [exact Hall|]. do 3 (split; [reflexivity|]).
  exact (full_exclusion_builds_empty onTag (blockOf itAC) (blockOf itX) fresh
           itAC itX emptyBuilder twoColumns [[1; 3]; [4; 6]] spent
           eq_refl eq_refl eq_refl Hall eq_refl eq_refl eq_refl).
Defined.

(** C8 at work, once for each call that can fail. *)
Lemma errors_pass_through_witness :
  Process onTag (unopened "left") (blockOf itX) fresh
    = (Return None (Some (errExternal "left")), fresh) ∧
  Process onTag (blockOf itABC) (unopened "right") fresh
    = (Return None (Some (errExternal "right")), fresh) ∧
  Process onTag (blockOf itABC) (blockOf itX) exhausted
    = (Return None (Some (errExternal "no builder available")), refused) ∧
  Process onTag (blockOf itNegative) (blockOf itNegative') fresh
    = (Return None (Some (errExternal "negative column count")), spent) ∧
  Process onTag (blockOf itBroken) (blockOf itNone) fresh
    = (Return None (Some (errExternal "step lost")), spent).
Proof.
  split; [|split; [|split; [|split]]];
    apply (@errors_pass_through sampleData sampleCollaborators).
  - by apply (@fails_left sampleData sampleCollaborators).
  - by apply (@fails_right sampleData sampleCollaborators _ _ _ _ itABC).
  - apply (@fails_builder sampleData sampleCollaborators _ _ _ _ itABC itX [B]); try reflexivity.
    by apply projection_mapM.
  - apply (@fails_columns sampleData sampleCollaborators _ _ _ _ itNegative itNegative' [B; C]
             {| cbMeta := (0, 60); cbSeries := [B; C]; cbColumns := [] |});
      try reflexivity.
    by apply projection_mapM.
  - apply (@fails_step sampleData sampleCollaborators _ _ _ _ itBroken itNone [B; C]
             {| cbMeta := (0, 60); cbSeries := [B; C]; cbColumns := [] |}
             {| cbMeta := (0, 60); cbSeries := [B; C]; cbColumns := [[]; []] |}
             [[1; 2; 3]] [inr [7; 8; 9]]); try reflexivity.
    + by apply projection_mapM.
    + constructor; [|constructor]. exists [2; 3]. by apply projection_mapM.
Defined.

(** C9 at work: the left steps carry three values each; nothing
    panics. *)
Lemma indexing_in_bounds_witness :
  aligned itABC ∧
  Forall (λ idx, 0 ≤ idx < Z.of_nat (length (iterSeriesMeta itABC)))
    (exclusion onTag (iterSeriesMeta itABC) (iterSeriesMeta itX)) ∧
  (∃ taken, takeMeta (iterSeriesMeta itABC)
              (exclusion onTag (iterSeriesMeta itABC) (iterSeriesMeta itX)) []
            = Some taken) ∧
  (∀ builder, is_Some (addValuesAtIndeces
                (exclusion onTag (iterSeriesMeta itABC) (iterSeriesMeta itX))
                itABC builder)) ∧
  (Process onTag (blockOf itABC) (blockOf itX) fresh).1 ≠ Panic.
Proof.
  assert (aligned itABC) as Hal by (repeat constructor).
  split; [exact Hal|].
  exact (indexing_in_bounds onTag (blockOf itABC) (blockOf itX) fresh itABC itX
           eq_refl eq_refl Hal).
Defined.

(** C10 at work: two right blocks with the same series and step count,
    other values and a failing step. *)
Lemma right_values_unread_witness :
  StepCount itX = StepCount itX' ∧
  iterSeriesMeta itX = iterSeriesMeta itX' ∧
  steps itX ≠ steps itX' ∧
  Process onTag (blockOf itABC) (blockOf itX) fresh
    = Process onTag (blockOf itABC) (blockOf itX') fresh.
Proof.
  split; [reflexivity|]. split; [reflexivity|]. split; [discriminate|].
  exact (right_values_unread onTag (blockOf itABC) (blockOf itX) (blockOf itX')
           fresh itX itX' eq_refl eq_refl eq_refl eq_refl).
Defined.

(** X1 at work: one right series of signature [x], or three of them
    under other names. *)
Lemma exclusion_right_signatures_witness :
  exclusion onTag [A; B; C] [series "R" "x"]
  = exclusion onTag [A; B; C] [series "Q" "x"; series "R" "x"; series "Q" "x"].
Proof.
  apply (@exclusion_right_signatures sampleData onTag).
  - intros rs Hin. exists (series "R" "x").
    split; [apply elem_of_cons; right; apply list_elem_of_here|].
    apply elem_of_cons in Hin as [->|Hin]; [reflexivity|].
    by apply not_elem_of_nil in Hin.
  - intros rs' Hin. exists (series "R" "x"). split; [apply list_elem_of_here|].
    apply elem_of_cons in Hin as [->|Hin]; [reflexivity|].
    apply elem_of_cons in Hin as [->|Hin]; [reflexivity|].
    apply elem_of_cons in Hin as [->|Hin]; [reflexivity|].
    by apply not_elem_of_nil in Hin.
Defined.

(** X4 at work: [B] and [C] survive; the left signatures are those of
    [x] and [y], none is a right one. *)
Lemma survivors_signatures_witness :
  projection [A; B; C] (exclusion onTag [A; B; C] []) [B; C] ∧
  NoDup ((λ meta, idFunction onTag (Tags meta)) <$> [B; C]) ∧
  signatures (idFunction onTag) [B; C]
    = signatures (idFunction onTag) [A; B; C] ∖ signatures (idFunction onTag) [] ∧
  length [B; C]
    = size (signatures (idFunction onTag) [A; B; C]
            ∖ signatures (idFunction onTag) []).
Proof.
  assert (projection [A; B; C] (exclusion onTag [A; B; C] []) [B; C]) as Hp
    by by apply projection_mapM.
  split; [exact Hp|].
  exact (@survivors_signatures sampleData onTag
           [A; B; C] [] [B; C] Hp).
Defined.

(** X5 at work: run again on [B] and [C], the selector keeps both. *)
Lemma exclusion_idempotent_witness :
  projection [A; B; C] (exclusion onTag [A; B; C] []) [B; C] ∧
  exclusion onTag [B; C] [] = Z.of_nat <$> seq 0 (length [B; C]).
Proof.
  assert (projection [A; B; C] (exclusion onTag [A; B; C] []) [B; C]) as Hp
    by by apply projection_mapM.
  split; [exact Hp|].
  exact (@exclusion_idempotent sampleData onTag
           [A; B; C] [] [B; C] Hp).
Defined.

(** X6 at work: excluding by a series of signature [z], then by one of
    signature [x], leaves [B], as excluding by both does. *)
Lemma exclusion_chain_witness :
  projection [A; B; C] (exclusion onTag [A; B; C] [series "S" "z"]) [B; C] ∧
  projection [B; C] (exclusion onTag [B; C] [series "R" "x"]) [B] ∧
  projection [A; B; C]
    (exclusion onTag [A; B; C] ([series "S" "z"] ++ [series "R" "x"])) [B].
Proof.
  assert (projection [A; B; C] (exclusion onTag [A; B; C] [series "S" "z"]) [B; C])
    as Hp by by apply projection_mapM.
  assert (projection [B; C] (exclusion onTag [B; C] [series "R" "x"]) [B])
    as Hp' by by apply projection_mapM.
  split; [exact Hp|]. split; [exact Hp'|].
  exact (@exclusion_chain sampleData onTag [A; B; C]
           [series "S" "z"] [series "R" "x"] [B; C] [B] Hp Hp').
Defined.

(** X7 at work: the conditions hold for [A], [B], [C] against no
    right series, and [Process] returns the block of [B] and [C]. *)
Lemma Process_succeeds_iff_witness :
  Process onTag (blockOf itABC) (blockOf itNone) fresh
  = (Return (Some outBC) None, spent).
Proof.
  apply (@Process_succeeds_iff sampleData sampleCollaborators).
  exists itABC, itNone, [B; C], [[1; 2; 3]; [4; 5; 6]], [[2; 3]; [5; 6]].
  split; [reflexivity|]. split; [reflexivity|]. split; [reflexivity|].
  split; [by apply projection_mapM|]. split; [reflexivity|].
  split; [repeat constructor; by apply projection_mapM|].
  by exists builderBC, builderBC2.
Defined.

(** X8 at work on unequal step counts. *)
Lemma Process_returns_witness :
  Process onTag (blockOf itFive) (blockOf itSix) fresh
    = (Return None (Some errMismatchedStepCounts), fresh) ∧
  ((∃ out, (None : option Block) = Some out
           ∧ Some errMismatchedStepCounts = None) ∨
   ((None : option Block) = None ∧
    ∃ e, Some errMismatchedStepCounts = Some e ∧
      ((∃ lIter rIter,
          blockStepIter (blockOf itFive) = inr lIter ∧
          blockStepIter (blockOf itSix) = inr rIter ∧
          StepCount lIter ≠ StepCount rIter ∧
          e = errMismatchedStepCounts ∧ fresh = fresh) ∨
       failsWith onTag (blockOf itFive) (blockOf itSix) fresh e fresh))).
Proof.
  assert (Process onTag (blockOf itFive) (blockOf itSix) fresh
          = (Return None (Some errMismatchedStepCounts), fresh)) as HP
    by (vm_compute; reflexivity).
  split; [exact HP|].
  exact (@Process_returns sampleData sampleCollaborators onTag (blockOf itFive)
           (blockOf itSix) fresh None (Some errMismatchedStepCounts) fresh HP).
Defined.


(** X10 at work: a step after the failing one, or none. *)
Lemma steps_after_error_unread_witness :
  steps itBroken = [inr [1; 2; 3]] ++ inl (errExternal "step lost") :: [inr [7; 8; 9]] ∧
  steps itBroken' = [inr [1; 2; 3]] ++ inl (errExternal "step lost") :: [] ∧
  Process onTag (blockOf itBroken) (blockOf itNone) fresh
  = Process onTag (blockOf itBroken') (blockOf itNone) fresh.
Proof.
  split; [reflexivity|]. split; [reflexivity|].
  exact (@steps_after_error_unread sampleData sampleCollaborators onTag
           (blockOf itBroken) (blockOf itBroken') (blockOf itNone) fresh
           itBroken itBroken' itNone [inr [1; 2; 3]] [inr [7; 8; 9]] []
           (errExternal "step lost")
           eq_refl eq_refl eq_refl eq_refl eq_refl eq_refl eq_refl eq_refl).
Defined.

(** X11 at work: other values for the dropped series [A], and a value
    too many in the second step. *)
Lemma excluded_values_unread_witness :
  steps itABC ≠ steps itABC' ∧
  Process onTag (blockOf itABC) (blockOf itNone) fresh
  = Process onTag (blockOf itABC') (blockOf itNone) fresh.
Proof.
  split; [discriminate|].
  apply (@excluded_values_unread sampleData sampleCollaborators onTag
           (blockOf itABC) (blockOf itABC') (blockOf itNone) fresh
           itABC itABC' itNone); try reflexivity.
  replace (exclusion onTag (iterSeriesMeta itABC) (iterSeriesMeta itNone))
    with [1; 2] by (vm_compute; reflexivity).
  constructor; [|constructor; [|constructor]]; intros idx Hin;
    (apply elem_of_cons in Hin as [->|Hin]; [reflexivity|]);
    (apply elem_of_cons in Hin as [->|Hin]; [reflexivity|]);
    by apply not_elem_of_nil in Hin.
Defined.

(** X12 at work: the step after the first is lost; the builder holds
    the first row and no more. *)
Lemma addValuesAtIndeces_rows_witness :
  addValuesAtIndeces [1; 2] itBroken builderBC2
    = Some (Some (errExternal "step lost"), builderBCrow) ∧
  ∃ vss rows,
    Forall2 (λ values row, projection values [1; 2] row) vss rows ∧
    builderBCrow = replay builderBC2 (callsOf 0 rows) ∧
    ∃ post, steps itBroken = (inr <$> vss) ++ inl (errExternal "step lost") :: post.
Proof.
  assert (addValuesAtIndeces [1; 2] itBroken builderBC2
          = Some (Some (errExternal "step lost"), builderBCrow)) as Hv
    by (vm_compute; reflexivity).
  split; [exact Hv|].
  exact (@addValuesAtIndeces_rows sampleData sampleCollaborators [1; 2] itBroken
           builderBC2 builderBCrow (Some (errExternal "step lost")) Hv).
Defined.

(** X14 at work: [A] survives among [A] and [B], and no longer once
    [C], of the same signature, follows. *)
Lemma exclusion_left_app_witness :
  [A; B] !! 0%nat = Some A ∧
  (Z.of_nat 0 ∈ exclusion onTag ([A; B] ++ [C]) [] ↔
     Z.of_nat 0 ∈ exclusion onTag [A; B] [] ∧
     ∀ m, m ∈ [C] → idFunction onTag (Tags m) ≠ idFunction onTag (Tags A)).
Proof.
  split; [reflexivity|].
  exact (@exclusion_left_app sampleData onTag [A; B] [C] [] 0%nat A eq_refl).
Defined.
